(** * The live telemetry client of the privacy dashboard

    A shallow embedding of the React component [App] in its two source
    variants:

    - [src/frontend/src/App.js]: pause/resume, a retry counter and an
      exponential reconnect delay;
    - [src/unnamed/part_000]: the earlier variant, without pause and with a
      fixed 3 s reconnect, of which the cells and the message handler are
      embedded.

    The component is ordinary JavaScript over React hooks, so the embedding
    has three layers.

    - [value] and the operations on it: the JavaScript values that
      [JSON.parse] can produce (plus [undefined] and [NaN], which property
      access and [+] introduce), with the handful of operators the handlers
      apply to them.
    - [js S A]: a state monad with exceptions over a component state [S].
      A [throw] keeps the state updates made before it, as the queued
      [setState] calls of a handler survive a later exception of that handler.
    - the component: its [useState] cells as a record, every handler as a
      [js] computation, and, for [App.js], the render/effect cycle together
      with the WebSocket objects and timers that outlive a render.

    Modelling conventions.

    - Numbers are mathematical integers ([VNum]) or [NaN].  JavaScript
      numbers are doubles; on integers of magnitude below 2^53 the double
      [+ 1] is the exact one, and no counter of this client leaves that range.
    - Strings are Rocq strings, one character per element.
    - [JSON.parse] is a built-in and is not re-implemented: a handler
      receives its outcome, [None] when it throws a [SyntaxError].
    - [console.*] calls have no effect on the component and are omitted; the
      conversions their arguments perform are kept where they can throw.
    - State updates are applied in the order the handler issues them.  Every
      updater of the component reads only the cell it updates, so this agrees
      with React's queue.  An updater that throws makes the next render throw;
      the file declares no error boundary, so the tree unmounts: [fault].
    - The updates of one handler are rendered together when the handler
      returns (React's batching), and the effects of that render run before
      the next event is handled. *)

From stdpp Require Import base strings gmap list option pretty.
From Stdlib Require Import ZArith Lia.

Set Warnings "-register-all".
Local Open Scope Z_scope.

(** ** JavaScript values *)

Inductive value : Type :=
  | VUndefined
  | VNull
  | VBool (b : bool)
  | VNum (n : Z)
  | VNaN
  | VStr (s : string)
  | VArr (l : list value)
  | VObj (m : gmap string value).

Inductive error : Type := TypeError | SyntaxError.

(** The outcome of evaluating an expression. *)
Inductive completion (A : Type) : Type :=
  | Normal (a : A)
  | Throw (e : error).
Arguments Normal {A} a.
Arguments Throw {A} e.

Definition completion_bind {A B} (c : completion A) (k : A → completion B)
  : completion B :=
  match c with
  | Normal a => k a
  | Throw e => Throw e
  end.

#[global] Instance completion_ret : MRet completion := λ A a, Normal a.
#[global] Instance completion_mbind : MBind completion :=
  λ A B k c, completion_bind c k.

Module JS.

(** [v.p] for a property name [p] that no built-in prototype defines.  This
    is the case of every name the handlers read: [type], [data],
    [recentFlows], [privacyLeaks], [totalFlows], [totalLeaks], [leakType],
    [leakDetail]. *)
Definition get (v : value) (p : string) : completion value :=
  match v with
  | VUndefined | VNull => Throw TypeError
  | VObj m => Normal (default VUndefined (m !! p))
  | _ => Normal VUndefined
  end.

(** ToBoolean. *)
Definition truthy (v : value) : bool :=
  match v with
  | VUndefined | VNull | VNaN => false
  | VBool b => b
  | VNum n => negb (n =? 0)
  | VStr s => negb (String.eqb s "")
  | VArr _ | VObj _ => true
  end.

(** [a || b] on already evaluated operands (neither operand of the one use
    in the handlers has an effect). *)
Definition or (a b : value) : value := if truthy a then a else b.

(** [v === s] for a string literal [s]. *)
Definition strict_eq_str (v : value) (s : string) : bool :=
  match v with
  | VStr t => String.eqb t s
  | _ => false
  end.

(** The characters of a string, each as a string of length one. *)
Fixpoint chars (s : string) : list value :=
  match s with
  | EmptyString => []
  | String c s' => VStr (String c EmptyString) :: chars s'
  end.

(** The elements [...v] contributes to an array literal. *)
Definition iterate (v : value) : completion (list value) :=
  match v with
  | VArr l => Normal l
  | VStr s => Normal (chars s)
  | _ => Throw TypeError
  end.

(** [l.slice(0, n)] on an array. *)
Definition slice0 (n : nat) (l : list value) : list value := take n l.

Definition indexed (l : list value) : gmap string value :=
  list_to_map (imap (λ i v, (pretty i, v)) l).

(** The own enumerable properties [...v] contributes to an object
    literal. *)
Definition own_properties (v : value) : gmap string value :=
  match v with
  | VObj m => m
  | VArr l => indexed l
  | VStr s => indexed (chars s)
  | _ => ∅
  end.

(** ToString of a value parsed from JSON.  A plain object prints as
    [[object Object]] unless an own [toString] property, which cannot be
    callable, shadows the inherited method. *)
Fixpoint to_string (v : value) : completion string :=
  match v with
  | VUndefined => Normal "undefined"
  | VNull => Normal "null"
  | VBool true => Normal "true"
  | VBool false => Normal "false"
  | VNum n => Normal (pretty n)
  | VNaN => Normal "NaN"
  | VStr s => Normal s
  | VArr l =>
      (fix join (l : list value) : completion string :=
         match l with
         | [] => Normal ""
         | x :: l' =>
             match (match x with
                    | VUndefined | VNull => Normal ""
                    | _ => to_string x
                    end) with
             | Throw e => Throw e
             | Normal sx =>
                 match l' with
                 | [] => Normal sx
                 | _ :: _ =>
                     match join l' with
                     | Throw e => Throw e
                     | Normal sl => Normal (sx +:+ "," +:+ sl)
                     end
                 end
             end
         end) l
  | VObj m =>
      match m !! "toString" with
      | Some _ => Throw TypeError
      | None => Normal "[object Object]"
      end
  end.

(** ToPrimitive: arrays and objects become strings. *)
Definition to_primitive (v : value) : completion value :=
  match v with
  | VArr _ | VObj _ => s ← to_string v; Normal (VStr s)
  | _ => Normal v
  end.

(** ToNumber of a primitive that is not a string. *)
Definition to_number (v : value) : value :=
  match v with
  | VNull => VNum 0
  | VBool true => VNum 1
  | VBool false => VNum 0
  | VNum n => VNum n
  | _ => VNaN
  end.

(** [a + b]. *)
Definition add (a b : value) : completion value :=
  pa ← to_primitive a;
  pb ← to_primitive b;
  match pa, pb with
  | VStr _, _ | _, VStr _ =>
      sa ← to_string pa; sb ← to_string pb; Normal (VStr (sa +:+ sb))
  | _, _ =>
      match to_number pa, to_number pb with
      | VNum x, VNum y => Normal (VNum (x + y))
      | _, _ => Normal VNaN
      end
  end.

End JS.

(** ** Handlers as computations over the component state *)

Definition js (S A : Type) : Type := S → S * completion A.

Definition js_ret {S A} (a : A) : js S A := λ s, (s, Normal a).

Definition js_bind {S A B} (m : js S A) (k : A → js S B) : js S B :=
  λ s, match m s with
       | (s', Normal a) => k a s'
       | (s', Throw e) => (s', Throw e)
       end.

(** [try { m } catch (error) { h error }]. *)
Definition try_catch {S A} (m : js S A) (h : error → js S A) : js S A :=
  λ s, match m s with
       | (s', Normal a) => (s', Normal a)
       | (s', Throw e) => h e s'
       end.

(** An expression without effect inside a handler. *)
Definition eval {S A} (c : completion A) : js S A := λ s, (s, c).

(** A state update. *)
Definition update {S} (f : S → S) : js S unit := λ s, (f s, Normal tt).

Definition exec {S A} (m : js S A) (s : S) : S := fst (m s).

Notation "x ⇐ m ; k" := (js_bind m (λ x, k))
  (at level 20, m at level 100, k at level 200, right associativity,
   format "'[' x  ⇐  m ;  '/' k ']'").
Notation "m ;;; k" := (js_bind m (λ _, k))
  (at level 100, k at level 200, right associativity).

(** The state [useState] starts [stats] with, and [clearData] writes back. *)
Definition empty_stats : value :=
  VObj (<["totalFlows" := VNum 0]>
       (<["totalLeaks" := VNum 0]>
       (<["recentFlows" := VArr []]>
       (<["privacyLeaks" := VArr []]> ∅)))).

(** A message [{type: ty, data: d}] as [JSON.parse] returns it. *)
Definition message_of (ty : string) (d : value) : value :=
  VObj (<["type" := VStr ty]> (<["data" := d]> ∅)).

(** ** [src/unnamed/part_000] *)

Module Part000.

Record Hooks : Type := {
  isConnected : bool;
  stats : value;
  allFlows : value;
  ws : option nat;
  fault : option error
}.

Definition initial : Hooks :=
  {| isConnected := false; stats := empty_stats; allFlows := VArr [];
     ws := None; fault := None |}.

Definition with_stats (v : value) (h : Hooks) : Hooks :=
  {| isConnected := isConnected h; stats := v; allFlows := allFlows h;
     ws := ws h; fault := fault h |}.
Definition with_allFlows (v : value) (h : Hooks) : Hooks :=
  {| isConnected := isConnected h; stats := stats h; allFlows := v;
     ws := ws h; fault := fault h |}.
Definition with_fault (e : error) (h : Hooks) : Hooks :=
  {| isConnected := isConnected h; stats := stats h; allFlows := allFlows h;
     ws := ws h; fault := Some e |}.

Definition setStats (v : value) : js Hooks unit := update (with_stats v).
Definition setAllFlows (v : value) : js Hooks unit := update (with_allFlows v).

(** [setStats(prev => ...)] and [setAllFlows(prev => ...)]. *)
Definition setStats_with (u : value → completion value) : js Hooks unit :=
  update (λ h, match u (stats h) with
               | Normal v => with_stats v h
               | Throw e => with_fault e h
               end).
Definition setAllFlows_with (u : value → completion value) : js Hooks unit :=
  update (λ h, match u (allFlows h) with
               | Normal v => with_allFlows v h
               | Throw e => with_fault e h
               end).

(** [prev => [newFlow, ...prev].slice(0, 100)] (line 63). *)
Definition allFlows_updater (newFlow prev : value) : completion value :=
  rest ← JS.iterate prev;
  Normal (VArr (JS.slice0 100 (newFlow :: rest))).

(** The object literal of lines 66-73. *)
Definition stats_updater (newFlow prev : value) : completion value :=
  let spread := JS.own_properties prev in
  flows ← JS.get prev "totalFlows";
  totalFlows' ← JS.add flows (VNum 1);
  tag ← JS.get newFlow "leakType";
  totalLeaks' ←
    (if JS.truthy tag
     then leaks ← JS.get prev "totalLeaks"; JS.add leaks (VNum 1)
     else JS.get prev "totalLeaks");
  tag' ← JS.get newFlow "leakType";
  privacyLeaks' ←
    (if JS.truthy tag'
     then leaks ← JS.get prev "privacyLeaks";
          rest ← JS.iterate leaks;
          Normal (VArr (JS.slice0 50 (newFlow :: rest)))
     else JS.get prev "privacyLeaks");
  Normal (VObj (<["privacyLeaks" := privacyLeaks']>
               (<["totalLeaks" := totalLeaks']>
               (<["totalFlows" := totalFlows']> spread)))).

(** [websocket.onmessage] (lines 53-78); [data] is the outcome of
    [JSON.parse(event.data)]. *)
Definition onmessage (data : option value) : js Hooks unit :=
  try_catch
    (message ⇐ eval (match data with
                     | Some v => Normal v
                     | None => Throw SyntaxError
                     end);
     type ⇐ eval (JS.get message "type");
     if JS.strict_eq_str type "stats_update" then
       payload ⇐ eval (JS.get message "data");
       setStats payload;;;
       recent ⇐ eval (JS.get payload "recentFlows");
       setAllFlows (JS.or recent (VArr []))
     else
       type' ⇐ eval (JS.get message "type");
       if JS.strict_eq_str type' "new_traffic" then
         newFlow ⇐ eval (JS.get message "data");
         setAllFlows_with (allFlows_updater newFlow);;;
         setStats_with (stats_updater newFlow)
       else js_ret tt)
    (λ _, js_ret tt).

End Part000.

(** ** [src/frontend/src/App.js] *)

Module AppJs.

Record Hooks : Type := {
  isConnected : bool;
  isListening : bool;
  stats : value;
  allFlows : value;
  ws : option nat;
  connectionAttempts : Z;
  lastUpdate : option Z;
  fault : option error
}.

Definition initial : Hooks :=
  {| isConnected := false; isListening := true; stats := empty_stats;
     allFlows := VArr []; ws := None; connectionAttempts := 0;
     lastUpdate := None; fault := None |}.

Definition with_isConnected (b : bool) (h : Hooks) : Hooks :=
  {| isConnected := b; isListening := isListening h; stats := stats h;
     allFlows := allFlows h; ws := ws h;
     connectionAttempts := connectionAttempts h;
     lastUpdate := lastUpdate h; fault := fault h |}.
Definition with_isListening (b : bool) (h : Hooks) : Hooks :=
  {| isConnected := isConnected h; isListening := b; stats := stats h;
     allFlows := allFlows h; ws := ws h;
     connectionAttempts := connectionAttempts h;
     lastUpdate := lastUpdate h; fault := fault h |}.
Definition with_stats (v : value) (h : Hooks) : Hooks :=
  {| isConnected := isConnected h; isListening := isListening h; stats := v;
     allFlows := allFlows h; ws := ws h;
     connectionAttempts := connectionAttempts h;
     lastUpdate := lastUpdate h; fault := fault h |}.
Definition with_allFlows (v : value) (h : Hooks) : Hooks :=
  {| isConnected := isConnected h; isListening := isListening h;
     stats := stats h; allFlows := v; ws := ws h;
     connectionAttempts := connectionAttempts h;
     lastUpdate := lastUpdate h; fault := fault h |}.
Definition with_ws (w : option nat) (h : Hooks) : Hooks :=
  {| isConnected := isConnected h; isListening := isListening h;
     stats := stats h; allFlows := allFlows h; ws := w;
     connectionAttempts := connectionAttempts h;
     lastUpdate := lastUpdate h; fault := fault h |}.
Definition with_connectionAttempts (n : Z) (h : Hooks) : Hooks :=
  {| isConnected := isConnected h; isListening := isListening h;
     stats := stats h; allFlows := allFlows h; ws := ws h;
     connectionAttempts := n;
     lastUpdate := lastUpdate h; fault := fault h |}.
Definition with_lastUpdate (t : Z) (h : Hooks) : Hooks :=
  {| isConnected := isConnected h; isListening := isListening h;
     stats := stats h; allFlows := allFlows h; ws := ws h;
     connectionAttempts := connectionAttempts h;
     lastUpdate := Some t; fault := fault h |}.
Definition with_fault (e : error) (h : Hooks) : Hooks :=
  {| isConnected := isConnected h; isListening := isListening h;
     stats := stats h; allFlows := allFlows h; ws := ws h;
     connectionAttempts := connectionAttempts h;
     lastUpdate := lastUpdate h; fault := Some e |}.

Definition setStats (v : value) : js Hooks unit := update (with_stats v).
Definition setAllFlows (v : value) : js Hooks unit := update (with_allFlows v).
Definition setLastUpdate (t : Z) : js Hooks unit := update (with_lastUpdate t).

(** [setStats(prev => ...)] and [setAllFlows(prev => ...)]. *)
Definition setStats_with (u : value → completion value) : js Hooks unit :=
  update (λ h, match u (stats h) with
               | Normal v => with_stats v h
               | Throw e => with_fault e h
               end).
Definition setAllFlows_with (u : value → completion value) : js Hooks unit :=
  update (λ h, match u (allFlows h) with
               | Normal v => with_allFlows v h
               | Throw e => with_fault e h
               end).

(** [prev => [newFlow, ...prev].slice(0, 100)] (line 71). *)
Definition allFlows_updater (newFlow prev : value) : completion value :=
  rest ← JS.iterate prev;
  Normal (VArr (JS.slice0 100 (newFlow :: rest))).

(** The object literal of lines 74-81. *)
Definition stats_updater (newFlow prev : value) : completion value :=
  let spread := JS.own_properties prev in
  flows ← JS.get prev "totalFlows";
  totalFlows' ← JS.add flows (VNum 1);
  tag ← JS.get newFlow "leakType";
  totalLeaks' ←
    (if JS.truthy tag
     then leaks ← JS.get prev "totalLeaks"; JS.add leaks (VNum 1)
     else JS.get prev "totalLeaks");
  tag' ← JS.get newFlow "leakType";
  privacyLeaks' ←
    (if JS.truthy tag'
     then leaks ← JS.get prev "privacyLeaks";
          rest ← JS.iterate leaks;
          Normal (VArr (JS.slice0 50 (newFlow :: rest)))
     else JS.get prev "privacyLeaks");
  Normal (VObj (<["privacyLeaks" := privacyLeaks']>
               (<["totalLeaks" := totalLeaks']>
               (<["totalFlows" := totalFlows']> spread)))).

(** The template literal of the [console.warn] of line 85: it converts
    [leakType] and [leakDetail] to strings. *)
Definition leak_notification (newFlow : value) : completion unit :=
  tag ← JS.get newFlow "leakType";
  _ ← JS.to_string tag;
  detail ← JS.get newFlow "leakDetail";
  _ ← JS.to_string detail;
  Normal tt.

(** [websocket.onmessage] (lines 58-91); [data] is the outcome of
    [JSON.parse(event.data)] and [now] the value of [new Date()]. *)
Definition onmessage (now : Z) (data : option value) : js Hooks unit :=
  try_catch
    (message ⇐ eval (match data with
                     | Some v => Normal v
                     | None => Throw SyntaxError
                     end);
     setLastUpdate now;;;
     type ⇐ eval (JS.get message "type");
     if JS.strict_eq_str type "stats_update" then
       payload ⇐ eval (JS.get message "data");
       setStats payload;;;
       recent ⇐ eval (JS.get payload "recentFlows");
       setAllFlows (JS.or recent (VArr []))
     else
       type' ⇐ eval (JS.get message "type");
       if JS.strict_eq_str type' "new_traffic" then
         newFlow ⇐ eval (JS.get message "data");
         setAllFlows_with (allFlows_updater newFlow);;;
         setStats_with (stats_updater newFlow);;;
         tag ⇐ eval (JS.get newFlow "leakType");
         if JS.truthy tag then eval (leak_notification newFlow)
         else js_ret tt
       else js_ret tt)
    (λ _, js_ret tt).

(** [clearData] from the point where the POST has been answered
    (lines 140-144), [ok] being [response.ok]; a rejected [fetch] is caught
    and changes nothing. *)
Definition clearData (ok : bool) : js Hooks unit :=
  if ok then
    setStats empty_stats;;;
    setAllFlows (VArr [])
  else js_ret tt.

(** *** The connection manager

    [connectWebSocket] is a [useCallback] over the dependencies
    [[isListening, connectionAttempts]].  The function object of a render
    reads [isListening] and [connectionAttempts] as constants of that
    render, and the handlers and timer callbacks it installs read the same
    constants and call the same function object again.  A function object is
    therefore represented by the two values it captured. *)

Record Closure : Type := {
  cap_isListening : bool;
  cap_connectionAttempts : Z
}.

#[global] Instance Closure_eq_dec : EqDecision Closure.
Proof. solve_decision. Defined.

Inductive ReadyState : Type := CONNECTING | OPEN | CLOSING | CLOSED.

(** A WebSocket object: its ready state and the render whose handlers it
    carries. *)
Record WebSocket : Type := {
  readyState : ReadyState;
  handlers : Closure
}.

(** A pending [setTimeout]. *)
Record Timer : Type := {
  delay : Z;
  callback : Closure
}.

(** The mounted component and what it has created.  [ws] cells and
    [effect_ws] hold indices into [sockets].  [effect_deps] are the
    dependencies the effect of lines 150-160 last ran with and
    [effect_ws] the [ws] its cleanup captured. *)
Record App : Type := {
  hooks : Hooks;
  sockets : list WebSocket;
  timers : list Timer;
  effect_deps : Closure;
  effect_ws : option nat
}.

Definition with_hooks (h : Hooks) (a : App) : App :=
  {| hooks := h; sockets := sockets a; timers := timers a;
     effect_deps := effect_deps a; effect_ws := effect_ws a |}.
Definition with_sockets (l : list WebSocket) (a : App) : App :=
  {| hooks := hooks a; sockets := l; timers := timers a;
     effect_deps := effect_deps a; effect_ws := effect_ws a |}.
Definition with_timers (l : list Timer) (a : App) : App :=
  {| hooks := hooks a; sockets := sockets a; timers := l;
     effect_deps := effect_deps a; effect_ws := effect_ws a |}.
Definition with_effect (deps : Closure) (w : option nat) (a : App) : App :=
  {| hooks := hooks a; sockets := sockets a; timers := timers a;
     effect_deps := deps; effect_ws := w |}.

(** A handler over the cells, run inside the component. *)
Definition on_hooks {A} (m : js Hooks A) : js App A :=
  λ a, let (h, r) := m (hooks a) in (with_hooks h a, r).

Definition setIsConnected (b : bool) : js App unit :=
  on_hooks (update (with_isConnected b)).
Definition setIsListening (b : bool) : js App unit :=
  on_hooks (update (with_isListening b)).
Definition setWs (w : option nat) : js App unit :=
  on_hooks (update (with_ws w)).
Definition setConnectionAttempts (n : Z) : js App unit :=
  on_hooks (update (with_connectionAttempts n)).
Definition setConnectionAttempts_with (u : Z → Z) : js App unit :=
  on_hooks (update (λ h, with_connectionAttempts (u (connectionAttempts h)) h)).

(** [new WebSocket(websocketUrl)] with the handlers of [c] assigned to it.
    The endpoint is taken to be a well-formed [ws:]/[wss:] URL, so the
    constructor does not throw. *)
Definition new_WebSocket (c : Closure) : js App nat :=
  λ a, (with_sockets (sockets a ++ [{| readyState := CONNECTING;
                                       handlers := c |}]) a,
        Normal (length (sockets a))).

(** [w.close()]: starts the closing handshake unless already closing. *)
Definition close_socket (s : WebSocket) : WebSocket :=
  match readyState s with
  | CONNECTING | OPEN => {| readyState := CLOSING; handlers := handlers s |}
  | CLOSING | CLOSED => s
  end.

Definition WebSocket_close (w : nat) : js App unit :=
  update (λ a, with_sockets (alter close_socket w (sockets a)) a).

Definition setTimeout (c : Closure) (ms : Z) : js App unit :=
  update (λ a, with_timers (timers a ++ [{| delay := ms; callback := c |}]) a).

(** [connectWebSocket] of the render [c] (lines 43-118). *)
Definition connectWebSocket (c : Closure) : js App unit :=
  if negb (cap_isListening c) then js_ret tt
  else
    try_catch
      (websocket ⇐ new_WebSocket c;
       setWs (Some websocket))
      (λ _, setIsConnected false).

(** [websocket.onopen] (lines 52-56). *)
Definition onopen : js App unit :=
  setIsConnected true;;;
  setConnectionAttempts 0.

(** [Math.min(1000 * Math.pow(2, connectionAttempts), 30000)]. *)
Definition reconnect_delay (attempts : Z) : Z :=
  Z.min (1000 * 2 ^ attempts) 30000.

(** [websocket.onclose] of a socket created by the render [c]
    (lines 93-106). *)
Definition onclose (c : Closure) : js App unit :=
  setIsConnected false;;;
  if cap_isListening c && (cap_connectionAttempts c <? 5) then
    setTimeout c (reconnect_delay (cap_connectionAttempts c))
  else js_ret tt.

(** The callback handed to [setTimeout] (lines 101-104). *)
Definition reconnect (c : Closure) : js App unit :=
  setConnectionAttempts_with (λ prev, prev + 1);;;
  connectWebSocket c.

(** [websocket.onerror] (lines 108-111). *)
Definition onerror : js App unit := setIsConnected false.

(** The dependencies a render of the cells [h] computes, which is also the
    function object [connectWebSocket] denotes in that render. *)
Definition rendered (h : Hooks) : Closure :=
  {| cap_isListening := isListening h;
     cap_connectionAttempts := connectionAttempts h |}.

(** [toggleListening] (lines 120-133), clicked on the render of the
    current cells: [ws] and [connectWebSocket] are that render's. *)
Definition toggleListening : js App unit :=
  λ a,
    let prev := isListening (hooks a) in
    let ws_rendered := ws (hooks a) in
    let connect_rendered := rendered (hooks a) in
    let newListening := negb prev in
    ((match negb newListening, ws_rendered with
      | true, Some w =>
          WebSocket_close w;;;
          setWs None;;;
          setIsConnected false
      | _, _ =>
          if newListening then
            setConnectionAttempts 0;;;
            connectWebSocket connect_rendered
          else js_ret tt
      end);;;
     setIsListening newListening) a.

(** The effect of lines 150-160 together with its cleanup. *)
Definition effect_cleanup (captured_ws : option nat) : js App unit :=
  match captured_ws with
  | Some w => WebSocket_close w
  | None => js_ret tt
  end.

Definition effect_body (h : Hooks) : js App unit :=
  if isListening h then connectWebSocket (rendered h) else js_ret tt.

(** The render that follows a handler.  When [isListening] or
    [connectionAttempts] changed, [connectWebSocket] is a new function
    object, so the effect is cleaned up and run again; the [setWs] of the
    effect gives one more render, in which no dependency changed. *)
Definition commit (a : App) : App :=
  let h := hooks a in
  match fault h with
  | Some _ => a
  | None =>
      if decide (rendered h = effect_deps a) then a
      else
        let a1 := exec (effect_cleanup (effect_ws a)) a in
        let a2 := exec (effect_body h) a1 in
        with_effect (rendered h) (ws h) a2
  end.

(** The first render and its effect. *)
Definition mount : App :=
  let a := {| hooks := initial; sockets := []; timers := [];
              effect_deps := rendered initial; effect_ws := None |} in
  with_effect (rendered initial) (ws initial) (exec (effect_body initial) a).

(** What the browser, the backend and the user can do to the component. *)
Inductive Event : Type :=
  | SocketOpened (w : nat)
  | SocketMessage (w : nat) (now : Z) (data : option value)
  | SocketError (w : nat)
  | SocketClosed (w : nat)
  | TimerFired (k : nat)
  | ToggleClicked
  | ClearResponded (ok : bool).

Definition set_readyState (w : nat) (r : ReadyState) : js App unit :=
  update (λ a, with_sockets
                 (alter (λ s, {| readyState := r; handlers := handlers s |})
                        w (sockets a)) a).

(** The handler an event runs, or [None] when the event cannot occur in
    the state: a socket opens once, delivers messages while open and closes
    once; a timer fires once. *)
Definition dispatch (ev : Event) (a : App) : option (js App unit) :=
  match ev with
  | SocketOpened w =>
      s ← sockets a !! w;
      match readyState s with
      | CONNECTING => Some (set_readyState w OPEN;;; onopen)
      | _ => None
      end
  | SocketMessage w now data =>
      s ← sockets a !! w;
      match readyState s with
      | OPEN => Some (on_hooks (onmessage now data))
      | _ => None
      end
  | SocketError w =>
      s ← sockets a !! w;
      match readyState s with
      | CLOSED => None
      | _ => Some onerror
      end
  | SocketClosed w =>
      s ← sockets a !! w;
      match readyState s with
      | CLOSED => None
      | _ => Some (set_readyState w CLOSED;;; onclose (handlers s))
      end
  | TimerFired k =>
      t ← timers a !! k;
      Some (update (λ a, with_timers (delete k (timers a)) a);;;
            reconnect (callback t))
  | ToggleClicked => Some toggleListening
  | ClearResponded ok => Some (on_hooks (clearData ok))
  end.

(** One event: its handler, then the render.  An unmounted component
    takes no further step. *)
Definition step (a : App) (ev : Event) : option App :=
  match fault (hooks a) with
  | Some _ => None
  | None => m ← dispatch ev a; Some (commit (exec m a))
  end.

Fixpoint run (a : App) (evs : list Event) : option App :=
  match evs with
  | [] => Some a
  | ev :: evs' => a' ← step a ev; run a' evs'
  end.

End AppJs.

(** ** The aggregate behind the cells

    The presentation layer reads the counters and the leak list from [stats]
    and the list of recent flows from [allFlows]; [stats.recentFlows] is
    written by a snapshot only and is never rendered. *)

Record AggregationState : Type := {
  totalFlows : Z;
  totalLeaks : Z;
  recentFlows : list value;
  privacyLeaks : list value
}.

Definition aggregate_of (stats allFlows : value) : option AggregationState :=
  match stats, allFlows with
  | VObj m, VArr recent =>
      match m !! "totalFlows", m !! "totalLeaks", m !! "privacyLeaks" with
      | Some (VNum flows), Some (VNum leaks), Some (VArr leaked) =>
          Some {| totalFlows := flows; totalLeaks := leaks;
                  recentFlows := recent; privacyLeaks := leaked |}
      | _, _, _ => None
      end
  | _, _ => None
  end.

(** The test [newFlow.leakType ? ... : ...] on a flow object. *)
Definition carries_leakType (flow : gmap string value) : bool :=
  JS.truthy (default VUndefined (flow !! "leakType")).

(** The two kinds of message of the backend. *)
Definition new_traffic (flow : gmap string value) : option value :=
  Some (message_of "new_traffic" (VObj flow)).
Definition stats_update (payload : value) : option value :=
  Some (message_of "stats_update" payload).

Definition aggregate_Part000 (h : Part000.Hooks) : option AggregationState :=
  aggregate_of (Part000.stats h) (Part000.allFlows h).
Definition aggregate_AppJs (h : AppJs.Hooks) : option AggregationState :=
  aggregate_of (AppJs.stats h) (AppJs.allFlows h).

(** The cells after one message, and after a sequence of them. *)
Definition receive_Part000 (h : Part000.Hooks) (data : option value)
  : Part000.Hooks :=
  exec (Part000.onmessage data) h.
Definition receive_AppJs (h : AppJs.Hooks) (ev : Z * option value)
  : AppJs.Hooks :=
  exec (AppJs.onmessage ev.1 ev.2) h.

(** The cells the two variants have in common. *)
Definition agree (h1 : AppJs.Hooks) (h2 : Part000.Hooks) : Prop :=
  AppJs.stats h1 = Part000.stats h2 ∧
  AppJs.allFlows h1 = Part000.allFlows h2 ∧
  AppJs.fault h1 = Part000.fault h2.

(** The cells of [App.js] that make up the connection state. *)
Definition connection_of (h : AppJs.Hooks) : bool * bool * option nat * Z :=
  (AppJs.isConnected h, AppJs.isListening h, AppJs.ws h,
   AppJs.connectionAttempts h).

(** Whether the discriminator of a parsed message selects a branch of the
    handlers.  It does not when [message.type] throws or is neither of the
    two literals. *)
Definition known_kind (v : value) : bool :=
  match JS.get v "type" with
  | Normal ty =>
      JS.strict_eq_str ty "stats_update" || JS.strict_eq_str ty "new_traffic"
  | Throw _ => false
  end.

(** A message no branch of the handlers applies: text that does not parse,
    or a parsed value of unknown kind. *)
Definition unrecognised (data : option value) : bool :=
  match data with
  | None => true
  | Some v => negb (known_kind v)
  end.

(** The aggregate one more flow object leads to: the two updaters of an
    incremental message, read through [aggregate_of]. *)
Definition after_flow (flow : gmap string value) (agg : AggregationState)
  : AggregationState :=
  {| totalFlows := totalFlows agg + 1;
     totalLeaks := if carries_leakType flow then totalLeaks agg + 1
                   else totalLeaks agg;
     recentFlows := take 100 (VObj flow :: recentFlows agg);
     privacyLeaks := if carries_leakType flow
                     then take 50 (VObj flow :: privacyLeaks agg)
                     else privacyLeaks agg |}.

(** An incremental event: the time it arrives at and the flow it carries. *)
Definition incremental (ev : Z * gmap string value) : Z * option value :=
  (ev.1, new_traffic ev.2).

(** The cells after a sequence of messages, in arrival order. *)
Definition receive_all_AppJs (h : AppJs.Hooks) (evs : list (Z * option value))
  : AppJs.Hooks :=
  foldl receive_AppJs h evs.
Definition receive_all_Part000 (h : Part000.Hooks) (msgs : list (option value))
  : Part000.Hooks :=
  foldl receive_Part000 h msgs.

(** The caps on the two lists. *)
Definition within_caps (agg : AggregationState) : Prop :=
  (length (recentFlows agg) ≤ 100)%nat ∧ (length (privacyLeaks agg) ≤ 50)%nat.

(** The flows of a sequence that carry a [leakType]. *)
Definition leaking (flows : list (gmap string value))
  : list (gmap string value) :=
  List.filter carries_leakType flows.

(** The fields that section 4.1 of the specification requires of the
    payload of an incremental event.  Neither handler tests for them; the
    definition only serves to exhibit a payload the specification calls
    invalid. *)
Definition required_flow_fields : list string :=
  ["flowId"; "method"; "host"; "url"; "status"].

Definition has_required_fields (flow : gmap string value) : bool :=
  forallb (λ k, bool_decide (is_Some (flow !! k))) required_flow_fields.

(** ** The endpoint

    [BACKEND_URL] is read from the environment; [WS_URL] is computed from it
    once, when the module is loaded (lines 26-27 of [App.js], 24-25 of the
    earlier variant). *)

Module Url.

(** [s] without the prefix [pat], when it has that prefix. *)
Fixpoint strip_prefix (pat s : string) : option string :=
  match pat, s with
  | EmptyString, _ => Some s
  | String a pat', String b s' =>
      if Ascii.eqb a b then strip_prefix pat' s' else None
  | String _ _, EmptyString => None
  end.

(** [s.replace(pat, rep)] for a string pattern and a replacement without
    [$]: the first occurrence of [pat], if any, is replaced. *)
Fixpoint replace (pat rep s : string) : string :=
  match strip_prefix pat s with
  | Some rest => rep +:+ rest
  | None =>
      match s with
      | EmptyString => EmptyString
      | String c s' => String c (replace pat rep s')
      end
  end.

(** Whether [pat] occurs in [s]. *)
Fixpoint occurs (pat s : string) : bool :=
  match strip_prefix pat s with
  | Some _ => true
  | None =>
      match s with
      | EmptyString => false
      | String _ s' => occurs pat s'
      end
  end.

(** [BACKEND_URL.replace('https://', 'wss://').replace('http://', 'ws://')]. *)
Definition WS_URL (BACKEND_URL : string) : string :=
  replace "http://" "ws://" (replace "https://" "wss://" BACKEND_URL).

(** The template literal of [connectWebSocket]. *)
Definition websocketUrl (BACKEND_URL : string) : string :=
  WS_URL BACKEND_URL +:+ "/ws/dashboard".

End Url.

(** ** The connection manager of [src/unnamed/part_000]

    [connectWebSocket] is a [useCallback] without dependencies, so there is
    one function object; its handlers read no cell.  A WebSocket object is
    therefore its ready state alone, and a pending timer its delay.  The
    effect of lines 100-108 depends on [connectWebSocket] only: it runs once,
    after the first render. *)

Module Part000Manager.

Import Part000.

Record App : Type := {
  hooks : Hooks;
  sockets : list AppJs.ReadyState;
  timers : list Z
}.

Definition with_hooks (h : Hooks) (a : App) : App :=
  {| hooks := h; sockets := sockets a; timers := timers a |}.
Definition with_sockets (l : list AppJs.ReadyState) (a : App) : App :=
  {| hooks := hooks a; sockets := l; timers := timers a |}.
Definition with_timers (l : list Z) (a : App) : App :=
  {| hooks := hooks a; sockets := sockets a; timers := l |}.

Definition with_isConnected (b : bool) (h : Hooks) : Hooks :=
  {| isConnected := b; stats := stats h; allFlows := allFlows h;
     ws := ws h; fault := fault h |}.
Definition with_ws (w : option nat) (h : Hooks) : Hooks :=
  {| isConnected := isConnected h; stats := stats h; allFlows := allFlows h;
     ws := w; fault := fault h |}.

Definition on_hooks {A} (m : js Hooks A) : js App A :=
  λ a, let (h, r) := m (hooks a) in (with_hooks h a, r).

Definition setIsConnected (b : bool) : js App unit :=
  on_hooks (update (with_isConnected b)).
Definition setWs (w : option nat) : js App unit :=
  on_hooks (update (with_ws w)).

(** [new WebSocket(websocketUrl)]; the endpoint is taken to be well-formed,
    as in [App.js]. *)
Definition new_WebSocket : js App nat :=
  λ a, (with_sockets (sockets a ++ [AppJs.CONNECTING]) a,
        Normal (length (sockets a))).

(** [setTimeout(connectWebSocket, ms)]. *)
Definition setTimeout (ms : Z) : js App unit :=
  update (λ a, with_timers (timers a ++ [ms]) a).

(** [connectWebSocket] (lines 41-98). *)
Definition connectWebSocket : js App unit :=
  try_catch
    (websocket ⇐ new_WebSocket;
     setWs (Some websocket))
    (λ _, setIsConnected false;;; setTimeout 3000).

(** [websocket.onopen], [websocket.onclose] and [websocket.onerror]
    (lines 48-51, 80-85, 87-90). *)
Definition onopen : js App unit := setIsConnected true.
Definition onclose : js App unit :=
  setIsConnected false;;;
  setTimeout 3000.
Definition onerror : js App unit := setIsConnected false.

(** [generateMockData] (lines 110-121): a POST whose outcome is only
    logged. *)
Definition generateMockData : js App unit := js_ret tt.

(** The first render and its effect. *)
Definition mount : App :=
  exec connectWebSocket {| hooks := initial; sockets := []; timers := [] |}.

Inductive Event : Type :=
  | SocketOpened (w : nat)
  | SocketMessage (w : nat) (data : option value)
  | SocketError (w : nat)
  | SocketClosed (w : nat)
  | TimerFired (k : nat)
  | GenerateClicked.

Definition set_readyState (w : nat) (r : AppJs.ReadyState) : js App unit :=
  update (λ a, with_sockets (<[w := r]> (sockets a)) a).

(** The handler an event runs, or [None] when the event cannot occur. *)
Definition dispatch (ev : Event) (a : App) : option (js App unit) :=
  match ev with
  | SocketOpened w =>
      r ← sockets a !! w;
      match r with
      | AppJs.CONNECTING => Some (set_readyState w AppJs.OPEN;;; onopen)
      | _ => None
      end
  | SocketMessage w data =>
      r ← sockets a !! w;
      match r with
      | AppJs.OPEN => Some (on_hooks (onmessage data))
      | _ => None
      end
  | SocketError w =>
      r ← sockets a !! w;
      match r with
      | AppJs.CLOSED => None
      | _ => Some onerror
      end
  | SocketClosed w =>
      r ← sockets a !! w;
      match r with
      | AppJs.CLOSED => None
      | _ => Some (set_readyState w AppJs.CLOSED;;; onclose)
      end
  | TimerFired k =>
      _ ← timers a !! k;
      Some (update (λ a, with_timers (delete k (timers a)) a);;;
            connectWebSocket)
  | GenerateClicked => Some generateMockData
  end.

(** One event.  No handler changes a dependency of the effect, so the
    render that follows runs nothing; an unmounted component takes no
    further step. *)
Definition step (a : App) (ev : Event) : option App :=
  match fault (hooks a) with
  | Some _ => None
  | None => m ← dispatch ev a; Some (exec m a)
  end.

Fixpoint run (a : App) (evs : list Event) : option App :=
  match evs with
  | [] => Some a
  | ev :: evs' => a' ← step a ev; run a' evs'
  end.

(** The sockets that are not closed. *)
Definition live (l : list AppJs.ReadyState) : nat :=
  length (List.filter (λ r, match r with AppJs.CLOSED => false | _ => true end) l).

End Part000Manager.

(** ** Badges

    [getLeakTypeColor] and [getLeakTypeIcon] of the two variants; a [switch]
    compares with [===].  An icon is named by its component. *)

Inductive Icon : Type := Globe | Smartphone | Users | Eye | AlertTriangle.

Module AppJsBadge.

(** Lines 162-170 of [App.js]. *)
Definition getLeakTypeColor (leakType : value) : string :=
  if JS.strict_eq_str leakType "GPS_DATA" then
    "bg-red-100 text-red-800 border-red-200 dark:bg-red-900/20 dark:text-red-300 dark:border-red-800"
  else if JS.strict_eq_str leakType "DEVICE_INFO" then
    "bg-orange-100 text-orange-800 border-orange-200 dark:bg-orange-900/20 dark:text-orange-300 dark:border-orange-800"
  else if JS.strict_eq_str leakType "PERSONAL_DATA" then
    "bg-purple-100 text-purple-800 border-purple-200 dark:bg-purple-900/20 dark:text-purple-300 dark:border-purple-800"
  else if JS.strict_eq_str leakType "TRACKING" then
    "bg-yellow-100 text-yellow-800 border-yellow-200 dark:bg-yellow-900/20 dark:text-yellow-300 dark:border-yellow-800"
  else
    "bg-gray-100 text-gray-800 border-gray-200 dark:bg-gray-900/20 dark:text-gray-300 dark:border-gray-800".

(** Lines 172-180 of [App.js]. *)
Definition getLeakTypeIcon (leakType : value) : Icon :=
  if JS.strict_eq_str leakType "GPS_DATA" then Globe
  else if JS.strict_eq_str leakType "DEVICE_INFO" then Smartphone
  else if JS.strict_eq_str leakType "PERSONAL_DATA" then Users
  else if JS.strict_eq_str leakType "TRACKING" then Eye
  else AlertTriangle.

End AppJsBadge.

Module Part000Badge.

(** Lines 123-131 of the earlier variant. *)
Definition getLeakTypeColor (leakType : value) : string :=
  if JS.strict_eq_str leakType "GPS_DATA" then
    "bg-red-100 text-red-800 border-red-200"
  else if JS.strict_eq_str leakType "DEVICE_INFO" then
    "bg-orange-100 text-orange-800 border-orange-200"
  else if JS.strict_eq_str leakType "PERSONAL_DATA" then
    "bg-purple-100 text-purple-800 border-purple-200"
  else if JS.strict_eq_str leakType "TRACKING" then
    "bg-yellow-100 text-yellow-800 border-yellow-200"
  else
    "bg-gray-100 text-gray-800 border-gray-200".

(** Lines 133-141 of the earlier variant. *)
Definition getLeakTypeIcon (leakType : value) : Icon :=
  if JS.strict_eq_str leakType "GPS_DATA" then Globe
  else if JS.strict_eq_str leakType "DEVICE_INFO" then Smartphone
  else if JS.strict_eq_str leakType "PERSONAL_DATA" then Users
  else if JS.strict_eq_str leakType "TRACKING" then Eye
  else AlertTriangle.

End Part000Badge.

(** The leak types the badges know. *)
Definition known_leakTypes : list string :=
  ["GPS_DATA"; "DEVICE_INFO"; "PERSONAL_DATA"; "TRACKING"].

(** ** Well-formedness of the connection manager of [App.js]

    What every socket, timer and handle of a reachable state satisfies. *)

Definition socket_ok (s : AppJs.WebSocket) : Prop :=
  0 ≤ AppJs.cap_connectionAttempts (AppJs.handlers s).

Definition timer_ok (t : AppJs.Timer) : Prop :=
  AppJs.cap_isListening (AppJs.callback t) = true ∧
  0 ≤ AppJs.cap_connectionAttempts (AppJs.callback t) < 5 ∧
  AppJs.delay t = 1000 * 2 ^ AppJs.cap_connectionAttempts (AppJs.callback t).

Definition handle_ok (a : AppJs.App) (w : option nat) : Prop :=
  ∀ i, w = Some i → (i < length (AppJs.sockets a))%nat.

Definition well_formed (a : AppJs.App) : Prop :=
  0 ≤ AppJs.connectionAttempts (AppJs.hooks a) ∧
  Forall socket_ok (AppJs.sockets a) ∧
  Forall timer_ok (AppJs.timers a) ∧
  handle_ok a (AppJs.ws (AppJs.hooks a)) ∧
  handle_ok a (AppJs.effect_ws a).

(** ** Properties of the message handlers *)

Section handlers.

Lemma take_app_take (n : nat) (l k : list value) :
  take n (l ++ take n k) = take n (l ++ k).
Proof.
  rewrite !take_app, take_take. do 2 f_equal. lia.
Qed.

Lemma aggregate_of_Some stats allFlows agg :
  aggregate_of stats allFlows = Some agg →
  ∃ m, stats = VObj m ∧ allFlows = VArr (recentFlows agg) ∧
       m !! "totalFlows" = Some (VNum (totalFlows agg)) ∧
       m !! "totalLeaks" = Some (VNum (totalLeaks agg)) ∧
       m !! "privacyLeaks" = Some (VArr (privacyLeaks agg)).
Proof.
  unfold aggregate_of. intros H.
  destruct stats as [| | | | | | |m]; try discriminate.
  destruct allFlows as [| | | | | |recent|]; try discriminate.
  destruct (m !! "totalFlows") as [[| | |f| | | |]|] eqn:Hf; try discriminate.
  destruct (m !! "totalLeaks") as [[| | |l| | | |]|] eqn:Hl; try discriminate.
  destruct (m !! "privacyLeaks") as [[| | | | | |p|]|] eqn:Hp; try discriminate.
  injection H as <-. exists m. simpl. done.
Qed.

Lemma get_type_message_of ty d :
  JS.get (message_of ty d) "type" = Normal (VStr ty).
Proof. unfold message_of, JS.get. by rewrite lookup_insert_eq. Qed.

Lemma get_data_message_of ty d :
  JS.get (message_of ty d) "data" = Normal d.
Proof.
  unfold message_of, JS.get.
  rewrite lookup_insert_ne by done. by rewrite lookup_insert_eq.
Qed.

Lemma strict_eq_str_true v s : JS.strict_eq_str v s = true ↔ v = VStr s.
Proof.
  destruct v; cbn; try (split; [discriminate|intros [=]]).
  rewrite String.eqb_eq. split; congruence.
Qed.

Lemma get_total v p x q : JS.get v p = Normal x → ∃ y, JS.get v q = Normal y.
Proof. destruct v; cbn; try discriminate; eauto. Qed.

Lemma kind_cases v :
  known_kind v = false ∨
  (∃ d, JS.get v "type" = Normal (VStr "stats_update") ∧
        JS.get v "data" = Normal d) ∨
  (∃ d, JS.get v "type" = Normal (VStr "new_traffic") ∧
        JS.get v "data" = Normal d).
Proof.
  unfold known_kind. destruct (JS.get v "type") as [ty|] eqn:Hty; [|by left].
  destruct (get_total _ _ _ "data" Hty) as [d Hd].
  destruct (JS.strict_eq_str ty "stats_update") eqn:E1.
  { apply strict_eq_str_true in E1 as ->. eauto. }
  destruct (JS.strict_eq_str ty "new_traffic") eqn:E2.
  { apply strict_eq_str_true in E2 as ->. eauto 6. }
  by left.
Qed.

(** An incremental message runs the two updaters, whatever the
    notification that follows them does. *)
Lemma AppJs_onmessage_new_traffic h now v d :
  JS.get v "type" = Normal (VStr "new_traffic") →
  JS.get v "data" = Normal d →
  receive_AppJs h (now, Some v) =
  exec (AppJs.setStats_with (AppJs.stats_updater d))
    (exec (AppJs.setAllFlows_with (AppJs.allFlows_updater d))
       (AppJs.with_lastUpdate now h)).
Proof.
  intros Hty Hd.
  unfold receive_AppJs, exec, AppJs.onmessage, try_catch, js_bind, eval,
    AppJs.setLastUpdate, update, js_ret.
  cbn [fst snd]. rewrite !Hty, !Hd.
  cbn [JS.strict_eq_str String.eqb Ascii.eqb Bool.eqb].
  unfold AppJs.setAllFlows_with, AppJs.setStats_with, update. cbn [fst snd].
  destruct (JS.get d "leakType") as [t|]; [|done].
  destruct (JS.truthy t); [|done].
  by destruct (AppJs.leak_notification d).
Qed.

Lemma Part000_onmessage_new_traffic h v d :
  JS.get v "type" = Normal (VStr "new_traffic") →
  JS.get v "data" = Normal d →
  receive_Part000 h (Some v) =
  exec (Part000.setStats_with (Part000.stats_updater d))
    (exec (Part000.setAllFlows_with (Part000.allFlows_updater d)) h).
Proof.
  intros Hty Hd.
  unfold receive_Part000, exec, Part000.onmessage, try_catch, js_bind, eval,
    update, js_ret.
  cbn [fst snd]. rewrite !Hty, !Hd.
  cbn [JS.strict_eq_str String.eqb Ascii.eqb Bool.eqb].
  by unfold Part000.setAllFlows_with, Part000.setStats_with, update.
Qed.

(** A snapshot message writes the payload into [stats]; [allFlows] follows
    unless reading [recentFlows] off the payload throws. *)
Lemma AppJs_onmessage_stats_update h now v d :
  JS.get v "type" = Normal (VStr "stats_update") →
  JS.get v "data" = Normal d →
  receive_AppJs h (now, Some v) =
  let h' := AppJs.with_stats d (AppJs.with_lastUpdate now h) in
  match JS.get d "recentFlows" with
  | Normal recent => AppJs.with_allFlows (JS.or recent (VArr [])) h'
  | Throw _ => h'
  end.
Proof.
  intros Hty Hd.
  unfold receive_AppJs, exec, AppJs.onmessage, try_catch,
    js_bind, eval, AppJs.setLastUpdate, AppJs.setStats, AppJs.setAllFlows,
    update, js_ret.
  cbn [fst snd]. rewrite !Hty, !Hd.
  cbn [JS.strict_eq_str String.eqb Ascii.eqb Bool.eqb].
  by destruct (JS.get d "recentFlows").
Qed.

Lemma Part000_onmessage_stats_update h v d :
  JS.get v "type" = Normal (VStr "stats_update") →
  JS.get v "data" = Normal d →
  receive_Part000 h (Some v) =
  let h' := Part000.with_stats d h in
  match JS.get d "recentFlows" with
  | Normal recent => Part000.with_allFlows (JS.or recent (VArr [])) h'
  | Throw _ => h'
  end.
Proof.
  intros Hty Hd.
  unfold receive_Part000, exec, Part000.onmessage, try_catch,
    js_bind, eval, Part000.setStats, Part000.setAllFlows, update, js_ret.
  cbn [fst snd]. rewrite !Hty, !Hd.
  cbn [JS.strict_eq_str String.eqb Ascii.eqb Bool.eqb].
  by destruct (JS.get d "recentFlows").
Qed.

(** Any other parsed message only stamps [lastUpdate]; text that does not
    parse changes nothing. *)
Lemma AppJs_onmessage_unknown h now v :
  known_kind v = false →
  receive_AppJs h (now, Some v) = AppJs.with_lastUpdate now h.
Proof.
  unfold known_kind. intros Hk.
  unfold receive_AppJs, exec, AppJs.onmessage, try_catch, js_bind, eval,
    AppJs.setLastUpdate, update, js_ret.
  cbn [fst snd]. destruct (JS.get v "type") as [ty|]; [|done].
  apply orb_false_elim in Hk as [-> ->]. done.
Qed.

Lemma Part000_onmessage_unknown h v :
  known_kind v = false → receive_Part000 h (Some v) = h.
Proof.
  unfold known_kind. intros Hk.
  unfold receive_Part000, exec, Part000.onmessage, try_catch, js_bind, eval,
    update, js_ret.
  cbn [fst snd]. destruct (JS.get v "type") as [ty|]; [|done].
  apply orb_false_elim in Hk as [-> ->]. done.
Qed.

Lemma AppJs_onmessage_unparseable h now :
  receive_AppJs h (now, None) = h.
Proof. done. Qed.

Lemma Part000_onmessage_unparseable h : receive_Part000 h None = h.
Proof. done. Qed.

Lemma AppJs_receive_new_traffic h now d :
  receive_AppJs h (now, Some (message_of "new_traffic" d)) =
  exec (AppJs.setStats_with (AppJs.stats_updater d))
    (exec (AppJs.setAllFlows_with (AppJs.allFlows_updater d))
       (AppJs.with_lastUpdate now h)).
Proof.
  apply AppJs_onmessage_new_traffic;
    [apply get_type_message_of | apply get_data_message_of].
Qed.

Lemma AppJs_receive_stats_update h now d :
  receive_AppJs h (now, stats_update d) =
  let h' := AppJs.with_stats d (AppJs.with_lastUpdate now h) in
  match JS.get d "recentFlows" with
  | Normal recent => AppJs.with_allFlows (JS.or recent (VArr [])) h'
  | Throw _ => h'
  end.
Proof.
  apply AppJs_onmessage_stats_update;
    [apply get_type_message_of | apply get_data_message_of].
Qed.

(** The updaters on a well-formed aggregate and a flow object. *)
Lemma allFlows_updater_array flow recent :
  AppJs.allFlows_updater (VObj flow) (VArr recent) =
  Normal (VArr (take 100 (VObj flow :: recent))).
Proof. done. Qed.

Lemma stats_updater_object flow m flows leaks leaked :
  m !! "totalFlows" = Some (VNum flows) →
  m !! "totalLeaks" = Some (VNum leaks) →
  m !! "privacyLeaks" = Some (VArr leaked) →
  AppJs.stats_updater (VObj flow) (VObj m) =
  Normal (VObj
    (<["privacyLeaks" :=
         VArr (if carries_leakType flow then take 50 (VObj flow :: leaked)
               else leaked)]>
    (<["totalLeaks" :=
         VNum (if carries_leakType flow then leaks + 1 else leaks)]>
    (<["totalFlows" := VNum (flows + 1)]> m)))).
Proof.
  intros Hf Hl Hp. unfold AppJs.stats_updater, carries_leakType.
  unfold JS.get, JS.own_properties. rewrite Hf, Hl, Hp.
  cbn -[take insert].
  by destruct (JS.truthy (default VUndefined (flow !! "leakType"))).
Qed.

Lemma AppJs_new_traffic h now flow agg :
  aggregate_AppJs h = Some agg →
  let h' := receive_AppJs h (now, new_traffic flow) in
  aggregate_AppJs h' = Some (after_flow flow agg) ∧
  AppJs.fault h' = AppJs.fault h ∧
  connection_of h' = connection_of h.
Proof.
  intros Hagg. apply aggregate_of_Some in Hagg as (m & Hs & Ha & Hf & Hl & Hp).
  unfold new_traffic. cbn zeta. rewrite AppJs_receive_new_traffic.
  destruct h as [c l s a w n u ft]. cbn in Hs, Ha. subst s a.
  unfold exec, AppJs.setStats_with, AppJs.setAllFlows_with, update.
  cbn -[take insert lookup AppJs.stats_updater AppJs.allFlows_updater].
  rewrite allFlows_updater_array.
  cbn -[take insert lookup AppJs.stats_updater AppJs.allFlows_updater].
  rewrite (stats_updater_object _ _ _ _ _ Hf Hl Hp).
  unfold aggregate_AppJs, aggregate_of, after_flow.
  cbn -[take insert lookup].
  rewrite lookup_insert_ne by done. rewrite lookup_insert_ne by done.
  rewrite lookup_insert_eq.
  rewrite (lookup_insert_ne _ "privacyLeaks" "totalLeaks") by done.
  rewrite !lookup_insert_eq.
  split; [|done].
  by destruct (carries_leakType flow).
Qed.

(** The two variants apply the same updaters. *)
Lemma updaters_agree newFlow prev :
  AppJs.allFlows_updater newFlow prev = Part000.allFlows_updater newFlow prev ∧
  AppJs.stats_updater newFlow prev = Part000.stats_updater newFlow prev.
Proof. done. Qed.

Lemma receive_agree h1 h2 now data :
  agree h1 h2 →
  agree (receive_AppJs h1 (now, data)) (receive_Part000 h2 data).
Proof.
  destruct h1 as [c1 l1 s1 a1 w1 n1 u1 f1], h2 as [c2 s2 a2 w2 f2].
  unfold agree. cbn. intros (-> & -> & ->).
  destruct data as [v|]; [|done].
  destruct (kind_cases v) as [Hk|[(d & Hty & Hd)|(d & Hty & Hd)]].
  - by rewrite AppJs_onmessage_unknown, Part000_onmessage_unknown.
  - rewrite (AppJs_onmessage_stats_update _ _ _ _ Hty Hd),
      (Part000_onmessage_stats_update _ _ _ Hty Hd).
    cbn. by destruct (JS.get d "recentFlows").
  - rewrite (AppJs_onmessage_new_traffic _ _ _ _ Hty Hd),
      (Part000_onmessage_new_traffic _ _ _ Hty Hd).
    unfold exec, AppJs.setAllFlows_with, AppJs.setStats_with,
      Part000.setAllFlows_with, Part000.setStats_with, update. cbn.
    destruct (updaters_agree d a2) as [<- _].
    destruct (AppJs.allFlows_updater d a2); cbn;
      destruct (updaters_agree d s2) as [_ <-];
      by destruct (AppJs.stats_updater d s2).
Qed.

Lemma aggregate_initial :
  aggregate_AppJs AppJs.initial =
  Some {| totalFlows := 0; totalLeaks := 0;
          recentFlows := []; privacyLeaks := [] |}.
Proof. done. Qed.

Lemma agree_initial : agree AppJs.initial Part000.initial.
Proof. done. Qed.

Lemma agree_aggregate h1 h2 :
  agree h1 h2 → aggregate_Part000 h2 = aggregate_AppJs h1.
Proof.
  intros (Hs & Ha & _). unfold aggregate_Part000, aggregate_AppJs.
  by rewrite Hs, Ha.
Qed.

Lemma receive_all_agree (evs : list (Z * option value)) h1 h2 :
  agree h1 h2 →
  agree (receive_all_AppJs h1 evs) (receive_all_Part000 h2 (snd <$> evs)).
Proof.
  revert h1 h2. induction evs as [|[now data] evs IH]; intros h1 h2 H; [done|].
  cbn. apply IH. by apply receive_agree.
Qed.

(** A sequence of incremental events folds [after_flow] over the
    aggregate and leaves the connection cells and [fault] alone. *)
Lemma AppJs_incremental_run (evs : list (Z * gmap string value)) h agg :
  aggregate_AppJs h = Some agg →
  let h' := receive_all_AppJs h (incremental <$> evs) in
  aggregate_AppJs h' = Some (foldl (λ a f, after_flow f a) agg (snd <$> evs)) ∧
  AppJs.fault h' = AppJs.fault h ∧
  connection_of h' = connection_of h.
Proof.
  revert h agg. induction evs as [|[now flow] evs IH]; intros h agg Hagg; [done|].
  destruct (AppJs_new_traffic h now flow agg Hagg) as (H1 & H2 & H3).
  destruct (IH _ _ H1) as (IH1 & IH2 & IH3).
  rewrite !fmap_cons. unfold receive_all_AppJs in *. cbn [foldl].
  change (incremental (now, flow)) with (now, new_traffic flow).
  cbn [snd]. rewrite IH1, IH2, IH3. done.
Qed.

Lemma after_flow_within_caps flow agg :
  within_caps agg → within_caps (after_flow flow agg).
Proof.
  intros [Hr Hp]. unfold within_caps, after_flow. cbn -[take].
  split; [rewrite length_take; lia|].
  destruct (carries_leakType flow); [rewrite length_take; lia|done].
Qed.

Lemma after_flows_within_caps flows agg :
  within_caps agg → within_caps (foldl (λ a f, after_flow f a) agg flows).
Proof.
  revert agg. induction flows as [|f flows IH]; intros agg H; [done|].
  cbn. by apply IH, after_flow_within_caps.
Qed.

Lemma after_flows_counters flows agg :
  let agg' := foldl (λ a f, after_flow f a) agg flows in
  totalFlows agg' = totalFlows agg + Z.of_nat (length flows) ∧
  totalLeaks agg' = totalLeaks agg + Z.of_nat (length (leaking flows)).
Proof.
  revert agg. induction flows as [|f flows IH]; intros agg; cbn zeta.
  { cbn. lia. }
  destruct (IH (after_flow f agg)) as [H1 H2].
  cbn [foldl]. rewrite H1, H2. unfold leaking. cbn [List.filter after_flow
    totalFlows totalLeaks].
  destruct (carries_leakType f); cbn [length]; lia.
Qed.

(** The two lists hold the flows most recent first. *)
Lemma after_flows_lists flows agg :
  within_caps agg →
  let agg' := foldl (λ a f, after_flow f a) agg flows in
  recentFlows agg' = take 100 (reverse (VObj <$> flows) ++ recentFlows agg) ∧
  privacyLeaks agg' =
    take 50 (reverse (VObj <$> leaking flows) ++ privacyLeaks agg).
Proof.
  revert agg. induction flows as [|f flows IH]; intros agg Hcaps; cbn zeta.
  { destruct Hcaps. cbn. by rewrite !take_ge by lia. }
  destruct (IH (after_flow f agg)) as [H1 H2].
  { by apply after_flow_within_caps. }
  cbn [foldl]. rewrite H1, H2. unfold leaking.
  cbn [List.filter after_flow recentFlows privacyLeaks].
  rewrite fmap_cons, reverse_cons, <- app_assoc, take_app_take.
  split; [done|].
  destruct (carries_leakType f); [|done].
  by rewrite fmap_cons, reverse_cons, <- app_assoc, take_app_take.
Qed.

End handlers.

(** ** The aggregation store *)

Section aggregation.

Lemma Part000_messages (evs : list (Z * gmap string value)) :
  snd <$> (incremental <$> evs) = (new_traffic ∘ snd) <$> evs.
Proof. by rewrite <- list_fmap_compose. Qed.

(** Both variants, started empty, after a sequence of incremental
    events. *)
Lemma incremental_from_empty (evs : list (Z * gmap string value)) :
  let agg := foldl (λ a f, after_flow f a)
               {| totalFlows := 0; totalLeaks := 0;
                  recentFlows := []; privacyLeaks := [] |} (snd <$> evs) in
  let h1 := receive_all_AppJs AppJs.initial (incremental <$> evs) in
  let h2 := receive_all_Part000 Part000.initial ((new_traffic ∘ snd) <$> evs) in
  aggregate_AppJs h1 = Some agg ∧ AppJs.fault h1 = None ∧
  aggregate_Part000 h2 = Some agg ∧ Part000.fault h2 = None.
Proof.
  intros agg h1 h2.
  destruct (AppJs_incremental_run evs _ _ aggregate_initial) as (H1 & H2 & _).
  pose proof (receive_all_agree (incremental <$> evs) _ _ agree_initial) as Ha.
  rewrite Part000_messages in Ha. fold h1 h2 in Ha.
  rewrite (agree_aggregate _ _ Ha).
  destruct Ha as (_ & _ & <-). done.
Qed.

(** C1.  Whatever incremental events arrive, starting from the empty
    state, after each of them the list of recent flows holds at most 100
    entries and the list of privacy leaks at most 50, in both variants. *)
Theorem incremental_events_within_caps
    (evs : list (Z * gmap string value)) (k : nat) :
  let arrived := take k evs in
  let h1 := receive_all_AppJs AppJs.initial (incremental <$> arrived) in
  let h2 := receive_all_Part000 Part000.initial
              ((new_traffic ∘ snd) <$> arrived) in
  ∃ agg,
    aggregate_AppJs h1 = Some agg ∧ AppJs.fault h1 = None ∧
    aggregate_Part000 h2 = Some agg ∧ Part000.fault h2 = None ∧
    (length (recentFlows agg) ≤ 100)%nat ∧
    (length (privacyLeaks agg) ≤ 50)%nat.
Proof.
  intros arrived h1 h2.
  destruct (incremental_from_empty arrived) as (H1 & H2 & H3 & H4).
  eexists. repeat split; [exact H1|exact H2|exact H3|exact H4|..];
    apply after_flows_within_caps; split; cbn; lia.
Qed.

(** C2.  After N incremental events from the empty state, K of which
    carry a [leakType], [totalFlows] is N and [totalLeaks] is K, in both
    variants. *)
Theorem incremental_events_counted (evs : list (Z * gmap string value)) :
  let N := length evs in
  let K := length (leaking (snd <$> evs)) in
  let h1 := receive_all_AppJs AppJs.initial (incremental <$> evs) in
  let h2 := receive_all_Part000 Part000.initial ((new_traffic ∘ snd) <$> evs) in
  ∃ agg,
    aggregate_AppJs h1 = Some agg ∧ AppJs.fault h1 = None ∧
    aggregate_Part000 h2 = Some agg ∧ Part000.fault h2 = None ∧
    totalFlows agg = Z.of_nat N ∧ totalLeaks agg = Z.of_nat K.
Proof.
  intros N K h1 h2.
  destruct (incremental_from_empty evs) as (H1 & H2 & H3 & H4).
  eexists. repeat split; [exact H1|exact H2|exact H3|exact H4|..].
  - etrans; [apply after_flows_counters|]. cbn [totalFlows].
    subst N. rewrite length_fmap. lia.
  - etrans; [apply after_flows_counters|]. cbn [totalLeaks]. subst K. lia.
Qed.

(** Arrival order is the only order: after any sequence of incremental
    events from the empty state the recent flows are the last 100 flows,
    latest first, and the privacy leaks the last 50 leaking flows, latest
    first, in both variants. *)
Lemma incremental_events_most_recent_first (evs : list (Z * gmap string value)) :
  let flows := snd <$> evs in
  let h1 := receive_all_AppJs AppJs.initial (incremental <$> evs) in
  let h2 := receive_all_Part000 Part000.initial ((new_traffic ∘ snd) <$> evs) in
  ∃ agg,
    aggregate_AppJs h1 = Some agg ∧ aggregate_Part000 h2 = Some agg ∧
    recentFlows agg = take 100 (reverse (VObj <$> flows)) ∧
    privacyLeaks agg = take 50 (reverse (VObj <$> leaking flows)).
Proof.
  intros flows h1 h2.
  destruct (incremental_from_empty evs) as (H1 & _ & H3 & _).
  eexists. split; [exact H1|]. split; [exact H3|].
  fold flows.
  destruct (after_flows_lists flows
              {| totalFlows := 0; totalLeaks := 0;
                 recentFlows := []; privacyLeaks := [] |}) as [-> ->].
  { split; cbn; lia. }
  cbn [recentFlows privacyLeaks]. by rewrite !app_nil_r.
Qed.

(** C3.  Three incremental events from the empty state, of which only the
    second carries a [leakType], leave [totalFlows = 3], [totalLeaks = 1],
    the recent flows in the order third, second, first, and the second flow
    as the only privacy leak. *)
Theorem three_events_scenario
    (t1 t2 t3 : Z) (first second third : gmap string value) :
  carries_leakType first = false →
  carries_leakType second = true →
  carries_leakType third = false →
  aggregate_AppJs
    (receive_all_AppJs AppJs.initial
       (incremental <$> [(t1, first); (t2, second); (t3, third)])) =
  Some {| totalFlows := 3; totalLeaks := 1;
          recentFlows := [VObj third; VObj second; VObj first];
          privacyLeaks := [VObj second] |}.
Proof.
  intros L1 L2 L3.
  destruct (incremental_from_empty [(t1, first); (t2, second); (t3, third)])
    as (-> & _).
  cbn [fmap list_fmap foldl snd]. unfold after_flow.
  cbn [totalFlows totalLeaks recentFlows privacyLeaks].
  rewrite L1, L2, L3. reflexivity.
Qed.

Lemma three_events_scenario_witness :
  let first : gmap string value := {[ "flowId" := VStr "a" ]} in
  let second : gmap string value :=
    <["leakType" := VStr "GPS_DATA"]> {[ "flowId" := VStr "b" ]} in
  let third : gmap string value := {[ "flowId" := VStr "c" ]} in
  aggregate_AppJs
    (receive_all_AppJs AppJs.initial
       (incremental <$> [(1, first); (2, second); (3, third)])) =
  Some {| totalFlows := 3; totalLeaks := 1;
          recentFlows := [VObj third; VObj second; VObj first];
          privacyLeaks := [VObj second] |}.
Proof.
  intros first second third.
  apply (three_events_scenario 1 2 3 first second third);
    vm_compute; reflexivity.
Defined.

End aggregation.

(** ** Snapshots, clearing and discarded messages *)

Section snapshots.

Lemma AppJs_snapshot_aggregate h now (payload : gmap string value) :
  aggregate_AppJs (receive_AppJs h (now, stats_update (VObj payload))) =
  aggregate_of (VObj payload)
    (JS.or (default VUndefined (payload !! "recentFlows")) (VArr [])).
Proof. rewrite AppJs_receive_stats_update. by destruct h. Qed.

(** C4, as the code has it.  A snapshot replaces the aggregate by its
    payload as sent: [stats] becomes the payload and [allFlows] its
    [recentFlows], or the empty array when that is missing or falsy.
    Nothing of the state before survives, and nothing is truncated. *)
Theorem snapshot_installed_verbatim
    (h1 : AppJs.Hooks) (h2 : Part000.Hooks) (now : Z)
    (payload : gmap string value) :
  let recent := JS.or (default VUndefined (payload !! "recentFlows")) (VArr []) in
  let h1' := receive_AppJs h1 (now, stats_update (VObj payload)) in
  let h2' := receive_Part000 h2 (stats_update (VObj payload)) in
  AppJs.stats h1' = VObj payload ∧ AppJs.allFlows h1' = recent ∧
  Part000.stats h2' = VObj payload ∧ Part000.allFlows h2' = recent ∧
  aggregate_AppJs h1' = aggregate_of (VObj payload) recent ∧
  aggregate_Part000 h2' = aggregate_of (VObj payload) recent ∧
  AppJs.fault h1' = AppJs.fault h1 ∧ Part000.fault h2' = Part000.fault h2 ∧
  connection_of h1' = connection_of h1.
Proof.
  intros recent h1' h2'. subst h1' h2'.
  rewrite AppJs_receive_stats_update.
  unfold stats_update.
  rewrite (Part000_onmessage_stats_update h2 _ (VObj payload)
             (get_type_message_of _ _) (get_data_message_of _ _)).
  by destruct h1, h2.
Qed.

(** C4, the claim as stated fails: a snapshot with 101 recent flows and 51
    privacy leaks is installed with all of them. *)
Lemma snapshot_truncation_counterexample :
  let payload :=
    VObj (<["totalFlows" := VNum 101]>
         (<["totalLeaks" := VNum 51]>
         (<["recentFlows" := VArr (replicate 101 (VObj ∅))]>
         (<["privacyLeaks" := VArr (replicate 51 (VObj ∅))]> ∅)))) in
  let h1 := receive_AppJs AppJs.initial (0, stats_update payload) in
  let h2 := receive_Part000 Part000.initial (stats_update payload) in
  ∃ agg,
    aggregate_AppJs h1 = Some agg ∧ aggregate_Part000 h2 = Some agg ∧
    length (recentFlows agg) = 101%nat ∧
    length (privacyLeaks agg) = 51%nat ∧
    ¬ ((length (recentFlows agg) ≤ 100)%nat ∧
       (length (privacyLeaks agg) ≤ 50)%nat).
Proof.
  eexists. split; [vm_compute; reflexivity|].
  split; [vm_compute; reflexivity|].
  cbn [recentFlows privacyLeaks length].
  split; [reflexivity|]. split; [reflexivity|]. lia.
Qed.

(** C5, evaluated.  One leaking flow has arrived, so both lists are
    non-empty.  A snapshot without [recentFlows] is accepted and leaves the
    empty array in [allFlows].  A snapshot without [privacyLeaks] is accepted
    too, but the field stays [undefined] in [stats]: the aggregate is no
    longer well-formed, and the next incremental event that carries a
    [leakType] spreads [undefined] and throws inside the updater. *)
Theorem snapshot_without_privacyLeaks :
  let leak : gmap string value :=
    <["flowId" := VStr "a"]> {[ "leakType" := VStr "GPS_DATA" ]} in
  let without_recentFlows :=
    VObj (<["totalFlows" := VNum 0]>
         (<["totalLeaks" := VNum 0]>
         (<["privacyLeaks" := VArr []]> ∅))) in
  let without_privacyLeaks :=
    VObj (<["totalFlows" := VNum 0]>
         (<["totalLeaks" := VNum 0]>
         (<["recentFlows" := VArr []]> ∅))) in
  let h1 := receive_AppJs AppJs.initial (0, new_traffic leak) in
  let h2 := receive_Part000 Part000.initial (new_traffic leak) in
  (AppJs.allFlows h1 = VArr [VObj leak] ∧
   AppJs.allFlows (receive_AppJs h1 (1, stats_update without_recentFlows))
     = VArr [] ∧
   Part000.allFlows h2 = VArr [VObj leak] ∧
   Part000.allFlows (receive_Part000 h2 (stats_update without_recentFlows))
     = VArr []) ∧
  (let h1' := receive_AppJs h1 (1, stats_update without_privacyLeaks) in
   AppJs.stats h1' = without_privacyLeaks ∧ AppJs.fault h1' = None ∧
   JS.get (AppJs.stats h1') "privacyLeaks" = Normal VUndefined ∧
   aggregate_AppJs h1' = None ∧
   AppJs.fault (receive_AppJs h1' (2, new_traffic leak)) = Some TypeError) ∧
  (let h2' := receive_Part000 h2 (stats_update without_privacyLeaks) in
   Part000.stats h2' = without_privacyLeaks ∧ Part000.fault h2' = None ∧
   JS.get (Part000.stats h2') "privacyLeaks" = Normal VUndefined ∧
   aggregate_Part000 h2' = None ∧
   Part000.fault (receive_Part000 h2' (new_traffic leak)) = Some TypeError).
Proof. vm_compute. done. Qed.

(** C6, as the code has it.  On a well-formed aggregate with
    [totalLeaks ≤ totalFlows], an incremental event and a clear keep the
    inequality; after a snapshot the counters are those of the payload,
    whatever they are. *)
Theorem leaks_le_flows_preserved (h : AppJs.Hooks) (agg : AggregationState) :
  aggregate_AppJs h = Some agg →
  totalLeaks agg ≤ totalFlows agg →
  (∀ now flow, ∃ agg',
     aggregate_AppJs (receive_AppJs h (now, new_traffic flow)) = Some agg' ∧
     totalLeaks agg' ≤ totalFlows agg') ∧
  (∀ ok, ∃ agg',
     aggregate_AppJs (exec (AppJs.clearData ok) h) = Some agg' ∧
     totalLeaks agg' ≤ totalFlows agg') ∧
  (∀ now payload agg',
     aggregate_AppJs (receive_AppJs h (now, stats_update (VObj payload)))
       = Some agg' →
     payload !! "totalFlows" = Some (VNum (totalFlows agg')) ∧
     payload !! "totalLeaks" = Some (VNum (totalLeaks agg'))).
Proof.
  intros Hagg Hle. split; [|split].
  - intros now flow.
    destruct (AppJs_new_traffic h now flow agg Hagg) as (H & _).
    eexists. split; [exact H|]. unfold after_flow. cbn.
    destruct (carries_leakType flow); lia.
  - intros [|].
    + eexists. split; [vm_compute; reflexivity|]. cbn. lia.
    + exists agg. split; [exact Hagg|exact Hle].
  - intros now payload agg' H. rewrite AppJs_snapshot_aggregate in H.
    apply aggregate_of_Some in H as (m & [= <-] & _ & Hf & Hl & _). done.
Qed.

Lemma leaks_le_flows_preserved_witness :
  ∃ agg,
    aggregate_AppJs AppJs.initial = Some agg ∧
    ∃ agg',
      aggregate_AppJs
        (receive_AppJs AppJs.initial
           (0, new_traffic {[ "leakType" := VStr "TRACKING" ]})) = Some agg' ∧
      totalLeaks agg' ≤ totalFlows agg'.
Proof.
  eexists. split; [exact aggregate_initial|].
  refine (proj1 (leaks_le_flows_preserved AppJs.initial _ aggregate_initial _)
            0 {[ "leakType" := VStr "TRACKING" ]}).
  cbn. lia.
Defined.

(** C6, the claim as stated fails: from the empty state, where the
    inequality holds, a snapshot installs one leak for no flow. *)
Lemma snapshot_breaks_leaks_le_flows :
  let payload :=
    VObj (<["totalFlows" := VNum 0]>
         (<["totalLeaks" := VNum 1]>
         (<["recentFlows" := VArr []]>
         (<["privacyLeaks" := VArr []]> ∅)))) in
  ∃ agg agg',
    aggregate_AppJs AppJs.initial = Some agg ∧
    totalLeaks agg ≤ totalFlows agg ∧
    aggregate_AppJs (receive_AppJs AppJs.initial (0, stats_update payload))
      = Some agg' ∧
    ¬ (totalLeaks agg' ≤ totalFlows agg').
Proof.
  do 2 eexists. split; [vm_compute; reflexivity|].
  split; [cbn; lia|]. split; [vm_compute; reflexivity|]. cbn. lia.
Qed.

End snapshots.

(** ** Messages and the connection *)

Section discarding.

Import AppJs.

(** No message changes a connection cell. *)
Lemma onmessage_connection h now data :
  connection_of (receive_AppJs h (now, data)) = connection_of h.
Proof.
  destruct data as [v|]; [|done].
  destruct (kind_cases v) as [Hk|[(d & Hty & Hd)|(d & Hty & Hd)]].
  - rewrite AppJs_onmessage_unknown by done. by destruct h.
  - rewrite (AppJs_onmessage_stats_update _ _ _ _ Hty Hd). cbn zeta.
    destruct (JS.get d "recentFlows"); by destruct h.
  - rewrite (AppJs_onmessage_new_traffic _ _ _ _ Hty Hd).
    unfold exec, setAllFlows_with, setStats_with, update. cbn [fst].
    destruct h as [c l s a w n u ft]. cbn.
    destruct (allFlows_updater d a); cbn;
      by destruct (stats_updater d s).
Qed.

Lemma connection_rendered h h' :
  connection_of h' = connection_of h → rendered h' = rendered h.
Proof. unfold connection_of, rendered. intros [= _ -> _ ->]. done. Qed.

(** The render after a handler that changed no dependency of the effect
    runs nothing. *)
Lemma commit_unchanged a :
  rendered (hooks a) = effect_deps a → commit a = a.
Proof.
  intros H. unfold commit. destruct (fault (hooks a)); [done|].
  by rewrite decide_True.
Qed.

(** A message leaves the sockets and the timers as they are. *)
Lemma message_step a w now data s :
  fault (hooks a) = None →
  effect_deps a = rendered (hooks a) →
  sockets a !! w = Some s → readyState s = OPEN →
  step a (SocketMessage w now data) =
  Some (with_hooks (receive_AppJs (hooks a) (now, data)) a).
Proof.
  intros Hf Hd Hs Hr. unfold step. rewrite Hf. cbn. rewrite Hs. cbn.
  rewrite Hr. cbn. f_equal.
  unfold exec, on_hooks, receive_AppJs, exec. cbn.
  destruct (onmessage now data (hooks a)) as [h' r] eqn:E. cbn.
  apply commit_unchanged. cbn. rewrite Hd.
  apply connection_rendered.
  pose proof (onmessage_connection (hooks a) now data) as Hc.
  unfold receive_AppJs, exec in Hc. cbn in Hc. by rewrite E in Hc.
Qed.

(** After every render the effect is up to date with the cells. *)
Lemma connectWebSocket_hooks c a :
  let h' := hooks (exec (connectWebSocket c) a) in
  rendered h' = rendered (hooks a) ∧ fault h' = fault (hooks a).
Proof. unfold connectWebSocket. by destruct (cap_isListening c). Qed.

Lemma effect_cleanup_hooks w a :
  hooks (exec (effect_cleanup w) a) = hooks a.
Proof. by destruct w. Qed.

Lemma effect_hooks a :
  let h' := hooks (exec (effect_body (hooks a))
                     (exec (effect_cleanup (effect_ws a)) a)) in
  rendered h' = rendered (hooks a) ∧ fault h' = fault (hooks a).
Proof.
  unfold effect_body. destruct (isListening (hooks a)).
  - cbn zeta.
    destruct (connectWebSocket_hooks (rendered (hooks a))
                (exec (effect_cleanup (effect_ws a)) a)) as [-> ->].
    by rewrite effect_cleanup_hooks.
  - cbn. by rewrite effect_cleanup_hooks.
Qed.

Lemma commit_deps a :
  fault (hooks a) = None →
  effect_deps (commit a) = rendered (hooks (commit a)).
Proof.
  intros Hf. unfold commit. rewrite Hf.
  destruct (decide (rendered (hooks a) = effect_deps a)) as [E|_]; [done|].
  cbn. by destruct (effect_hooks a) as [-> _].
Qed.

Lemma commit_fault a : fault (hooks (commit a)) = fault (hooks a).
Proof.
  unfold commit. destruct (fault (hooks a)) eqn:Hf; [done|].
  destruct (decide (rendered (hooks a) = effect_deps a)); [done|].
  cbn. destruct (effect_hooks a) as [_ ->]. done.
Qed.

Lemma step_deps a ev a' :
  step a ev = Some a' → fault (hooks a') = None →
  effect_deps a' = rendered (hooks a').
Proof.
  unfold step. destruct (fault (hooks a)); [done|].
  destruct (dispatch ev a) as [m|]; [|done]. cbn. intros [= <-] Hf.
  apply commit_deps. by rewrite commit_fault in Hf.
Qed.

Lemma run_deps evs a a' :
  effect_deps a = rendered (hooks a) →
  run a evs = Some a' → fault (hooks a') = None →
  effect_deps a' = rendered (hooks a').
Proof.
  revert a. induction evs as [|ev evs IH]; intros a Ha; cbn.
  { by intros [= <-]. }
  destruct (step a ev) as [a1|] eqn:E; [|done]. cbn. intros Hrun Hf.
  destruct evs as [|ev' evs].
  - injection Hrun as <-. by eapply step_deps.
  - apply (IH a1); [|done..].
    eapply step_deps; [done|]. cbn in Hrun. unfold step in Hrun.
    by destruct (fault (hooks a1)).
Qed.

Lemma mount_deps : effect_deps mount = rendered (hooks mount).
Proof. done. Qed.

(** C7, as the code has it.  In every state the mounted component can
    reach, a message on an open socket whose text does not parse, or whose
    discriminator is missing or unknown, is discarded: the aggregate, the
    connection cells, the sockets and the timers stay as they are and the
    component does not fault.  The earlier variant leaves all its cells
    unchanged. *)
Theorem unrecognised_message_discarded
    (evs : list Event) (a : App) (w : nat) (now : Z) (data : option value)
    (h2 : Part000.Hooks) :
  run mount evs = Some a →
  fault (hooks a) = None →
  readyState <$> sockets a !! w = Some OPEN →
  unrecognised data = true →
  ∃ a',
    step a (SocketMessage w now data) = Some a' ∧
    stats (hooks a') = stats (hooks a) ∧
    allFlows (hooks a') = allFlows (hooks a) ∧
    connection_of (hooks a') = connection_of (hooks a) ∧
    fault (hooks a') = None ∧
    sockets a' = sockets a ∧ timers a' = timers a ∧
    receive_Part000 h2 data = h2.
Proof.
  intros Hrun Hf Hw Hdata.
  destruct (sockets a !! w) as [s|] eqn:Hs; [|done]. injection Hw as Hr.
  pose proof (run_deps _ _ _ mount_deps Hrun Hf) as Hd.
  eexists. split; [by eapply message_step|].
  destruct (hooks a) as [c l st al ws' n u ft] eqn:Hh. cbn in Hf. subst ft.
  destruct data as [v|]; cbn in Hdata.
  - apply negb_true_iff in Hdata.
    rewrite AppJs_onmessage_unknown, Part000_onmessage_unknown by done. done.
  - done.
Qed.

Lemma unrecognised_message_discarded_witness :
  let a := default mount (run mount [SocketOpened 0%nat]) in
  let data := Some (message_of "heartbeat" VNull) in
  ∃ a',
    step a (SocketMessage 0 7 data) = Some a' ∧
    stats (hooks a') = stats (hooks a) ∧
    allFlows (hooks a') = allFlows (hooks a) ∧
    connection_of (hooks a') = connection_of (hooks a) ∧
    fault (hooks a') = None ∧
    sockets a' = sockets a ∧ timers a' = timers a ∧
    receive_Part000 Part000.initial data = Part000.initial.
Proof.
  intros a data.
  apply (unrecognised_message_discarded [SocketOpened 0%nat] a 0 7 data
           Part000.initial); vm_compute; reflexivity.
Defined.

(** C7, the claim as stated fails: the payload [{}] of an incremental
    event has none of the fields the specification requires, yet both
    handlers count it and list it. *)
Lemma invalid_payload_counterexample :
  let h1 := receive_AppJs initial (0, new_traffic ∅) in
  let h2 := receive_Part000 Part000.initial (new_traffic ∅) in
  has_required_fields ∅ = false ∧
  aggregate_AppJs h1 =
    Some {| totalFlows := 1; totalLeaks := 0;
            recentFlows := [VObj ∅]; privacyLeaks := [] |} ∧
  aggregate_Part000 h2 = aggregate_AppJs h1 ∧
  aggregate_AppJs h1 ≠ aggregate_AppJs initial.
Proof. vm_compute. done. Qed.

(** C10.  On every message, parsed or not, and from every pair of states
    with the same [stats], [allFlows] and [fault], the handler of [App.js]
    and the handler of the earlier variant leave the same [stats],
    [allFlows] and [fault], hence the same aggregate. *)
Theorem variants_apply_messages_alike
    (h1 : Hooks) (h2 : Part000.Hooks) (now : Z) (data : option value) :
  agree h1 h2 →
  let h1' := receive_AppJs h1 (now, data) in
  let h2' := receive_Part000 h2 data in
  stats h1' = Part000.stats h2' ∧
  allFlows h1' = Part000.allFlows h2' ∧
  fault h1' = Part000.fault h2' ∧
  aggregate_AppJs h1' = aggregate_Part000 h2'.
Proof.
  intros H h1' h2'.
  pose proof (receive_agree h1 h2 now data H) as H'. fold h1' h2' in H'.
  rewrite (agree_aggregate _ _ H'). by destruct H' as (? & ? & ?).
Qed.

Lemma variants_apply_messages_alike_witness :
  let data := new_traffic {[ "leakType" := VStr "DEVICE_INFO" ]} in
  let h1' := receive_AppJs initial (5, data) in
  let h2' := receive_Part000 Part000.initial data in
  stats h1' = Part000.stats h2' ∧
  allFlows h1' = Part000.allFlows h2' ∧
  fault h1' = Part000.fault h2' ∧
  aggregate_AppJs h1' = aggregate_Part000 h2'.
Proof.
  intros data.
  apply (variants_apply_messages_alike initial Part000.initial 5 data).
  vm_compute. done.
Defined.

End discarding.

(** ** The connection manager of [App.js] *)

Section connection.

Import AppJs.

(** The guard of [onclose] reads the counter its render captured, not the
    cell: a socket created while the counter was below 5 schedules a
    reconnect whatever the counter has become since. *)
Lemma onclose_reads_captured_counter (c : Closure) (a : App) :
  cap_isListening c = true →
  cap_connectionAttempts c < 5 →
  timers (exec (onclose c) a) =
  timers a ++ [{| delay := reconnect_delay (cap_connectionAttempts c);
                  callback := c |}].
Proof.
  intros Hl Hn. unfold onclose, exec, js_bind, setIsConnected, on_hooks,
    update, setTimeout. cbn.
  rewrite Hl. apply Z.ltb_lt in Hn. by rewrite Hn.
Qed.

(** The reconnect callback connects again with the function object it
    captured, and so with the same captured counter. *)
Lemma reconnect_keeps_captured_counter (c : Closure) (a : App) :
  cap_isListening c = true →
  sockets (exec (reconnect c) a) =
  sockets a ++ [{| readyState := CONNECTING; handlers := c |}].
Proof.
  intros Hl. unfold reconnect, connectWebSocket, exec, js_bind. cbn.
  by rewrite Hl.
Qed.

(** C8, evaluated.  The client listens and every connection attempt fails
    at once; timers fire when due (1 s, 2 s, 4 s, ... after they were set).
    After eleven failed attempts and no successful one the counter cell
    stands at 5, and five reconnects are still scheduled, by renders whose
    captured counters are 2, 1, 3, 4 and 0.  When the next one due fires, a
    twelfth and a thirteenth socket are constructed and the counter
    becomes 6. *)
Theorem retries_continue_past_limit :
  let failures :=
    [SocketClosed 0; TimerFired 0;
     SocketClosed 1; SocketClosed 2; TimerFired 0;
     SocketClosed 3; SocketClosed 4; TimerFired 0;
     SocketClosed 5; SocketClosed 6; TimerFired 0;
     SocketClosed 7; SocketClosed 8; TimerFired 3;
     SocketClosed 9; SocketClosed 10]%nat in
  ∃ a a',
    run mount failures = Some a ∧
    isListening (hooks a) = true ∧
    isConnected (hooks a) = false ∧
    readyState <$> sockets a = replicate 11 CLOSED ∧
    connectionAttempts (hooks a) = 5 ∧
    (cap_connectionAttempts ∘ callback) <$> timers a = [2; 1; 3; 4; 0] ∧
    run a [TimerFired 1] = Some a' ∧
    readyState <$> sockets a' = replicate 11 CLOSED ++ [CONNECTING; CONNECTING] ∧
    connectionAttempts (hooks a') = 6.
Proof.
  do 2 eexists. split; [vm_compute; reflexivity|].
  vm_compute. done.
Qed.

(** The two branches of [toggleListening]. *)
Lemma toggle_resume (a : App) :
  isListening (hooks a) = false →
  exec toggleListening a =
  with_hooks (with_isListening true (with_connectionAttempts 0 (hooks a))) a.
Proof.
  destruct a as [[c l s al w n u ft] ss ts deps ew]. cbn. intros ->.
  unfold toggleListening, exec. cbn. by destruct w.
Qed.

Lemma toggle_pause (a : App) (w : nat) :
  isListening (hooks a) = true →
  ws (hooks a) = Some w →
  exec toggleListening a =
  with_hooks
    (with_isListening false (with_isConnected false (with_ws None (hooks a))))
    (with_sockets (alter close_socket w (sockets a)) a).
Proof.
  destruct a as [[c l s al w' n u ft] ss ts deps ew]. cbn. intros -> ->.
  done.
Qed.

(** The render after a handler that changed a dependency of the effect. *)
Lemma commit_changed (a : App) :
  fault (hooks a) = None →
  rendered (hooks a) ≠ effect_deps a →
  commit a =
  with_effect (rendered (hooks a)) (ws (hooks a))
    (exec (effect_body (hooks a)) (exec (effect_cleanup (effect_ws a)) a)).
Proof.
  intros Hf Hd. unfold commit. rewrite Hf. by rewrite decide_False.
Qed.

Lemma effect_cleanup_sockets (e : option nat) (a : App) :
  length (sockets (exec (effect_cleanup e) a)) = length (sockets a) ∧
  timers (exec (effect_cleanup e) a) = timers a.
Proof. destruct e; cbn; by rewrite ?length_alter. Qed.

Lemma connectWebSocket_listening (c : Closure) (a : App) :
  cap_isListening c = true →
  exec (connectWebSocket c) a =
  with_hooks (with_ws (Some (length (sockets a))) (hooks a))
    (with_sockets
       (sockets a ++ [{| readyState := CONNECTING; handlers := c |}]) a).
Proof. intros Hl. unfold connectWebSocket, exec. by rewrite Hl. Qed.

(** After a pause, the next click resumes: the counter is reset to 0 and
    the effect opens a connection. *)
Lemma resume_reconnects (a : App) :
  fault (hooks a) = None →
  isListening (hooks a) = false →
  effect_deps a = rendered (hooks a) →
  ∃ a',
    step a ToggleClicked = Some a' ∧
    isListening (hooks a') = true ∧
    connectionAttempts (hooks a') = 0 ∧
    ws (hooks a') = Some (length (sockets a)) ∧
    sockets a' !! length (sockets a) =
      Some {| readyState := CONNECTING;
              handlers := {| cap_isListening := true;
                             cap_connectionAttempts := 0 |} |}.
Proof.
  intros Hf Hl Hd. unfold step. rewrite Hf. cbn [dispatch mbind option_bind].
  eexists. split; [reflexivity|].
  rewrite toggle_resume by done.
  set (h1 := with_isListening true (with_connectionAttempts 0 (hooks a))).
  set (a1 := with_hooks h1 a).
  assert (rendered h1 = {| cap_isListening := true;
                           cap_connectionAttempts := 0 |}) as Hr by done.
  rewrite commit_changed.
  2:{ subst a1 h1. by destruct a as [[]]. }
  2:{ subst a1. cbn. rewrite Hr, Hd. unfold rendered. rewrite Hl. congruence. }
  change (hooks a1) with h1. change (effect_ws a1) with (effect_ws a).
  unfold effect_body. change (isListening h1) with true. cbn match.
  rewrite connectWebSocket_listening by done.
  destruct (effect_cleanup_sockets (effect_ws a) a1) as [Hlen _].
  change (sockets a1) with (sockets a) in Hlen.
  rewrite effect_cleanup_hooks. change (hooks a1) with h1.
  cbn [with_effect with_hooks with_sockets hooks sockets with_ws
       isListening connectionAttempts ws].
  rewrite Hlen. repeat split; try done.
  rewrite lookup_app_r by lia. by rewrite Hlen, Nat.sub_diag, Hr.
Qed.

Lemma close_socket_closing (s : WebSocket) :
  readyState (close_socket s) = CLOSING ∨ readyState (close_socket s) = CLOSED.
Proof. unfold close_socket. destruct (readyState s) eqn:E; cbn; auto. Qed.

(** The sockets after the cleanup of the effect: at most one more
    [close()]. *)
Lemma effect_cleanup_lookup (e : option nat) (a : App) (w : nat) (s : WebSocket) :
  sockets a !! w = Some s →
  sockets (exec (effect_cleanup e) a) !! w = Some s ∨
  sockets (exec (effect_cleanup e) a) !! w = Some (close_socket s).
Proof.
  intros Hs. destruct e as [e|]; cbn; [|by left].
  destruct (decide (e = w)) as [->|Hne].
  - right. by rewrite list_lookup_alter_eq, Hs.
  - left. by rewrite list_lookup_alter_ne.
Qed.

(** C9, as the code has it.  A pause while a connection is held closes
    that connection at once, clears the handle and shows the client
    disconnected; it opens no connection, keeps the retry counter and
    leaves the pending timers pending. *)
Theorem pause_closes_held_connection (a : App) (w : nat) (s : WebSocket) :
  fault (hooks a) = None →
  isListening (hooks a) = true →
  ws (hooks a) = Some w →
  sockets a !! w = Some s →
  ∃ a' s',
    step a ToggleClicked = Some a' ∧
    isListening (hooks a') = false ∧
    isConnected (hooks a') = false ∧
    ws (hooks a') = None ∧
    sockets a' !! w = Some s' ∧
    (readyState s' = CLOSING ∨ readyState s' = CLOSED) ∧
    length (sockets a') = length (sockets a) ∧
    connectionAttempts (hooks a') = connectionAttempts (hooks a) ∧
    timers a' = timers a.
Proof.
  intros Hf Hl Hw Hs. unfold step. rewrite Hf. cbn [dispatch mbind option_bind].
  rewrite (toggle_pause a w Hl Hw).
  set (h1 := with_isListening false
               (with_isConnected false (with_ws None (hooks a)))).
  set (a1 := with_hooks h1 (with_sockets (alter close_socket w (sockets a)) a)).
  assert (sockets a1 !! w = Some (close_socket s)) as Hs1.
  { subst a1. cbn. by rewrite list_lookup_alter_eq, Hs. }
  assert (connectionAttempts h1 = connectionAttempts (hooks a)) as Hn.
  { subst h1. by destruct (hooks a). }
  assert (fault h1 = None) as Hf1.
  { subst h1. by destruct (hooks a). }
  destruct (decide (rendered (hooks a1) = effect_deps a1)) as [E|E].
  - rewrite commit_unchanged by done.
    exists a1, (close_socket s). repeat split; try done.
    + apply close_socket_closing.
    + subst a1. cbn. by rewrite length_alter.
  - rewrite commit_changed by done.
    change (hooks a1) with h1. change (effect_ws a1) with (effect_ws a).
    unfold effect_body. change (isListening h1) with false. cbn match.
    set (a2 := exec (effect_cleanup (effect_ws a)) a1).
    destruct (effect_cleanup_sockets (effect_ws a) a1) as [Hlen Ht].
    fold a2 in Hlen, Ht.
    assert (hooks a2 = h1) as Hh2 by apply effect_cleanup_hooks.
    destruct (effect_cleanup_lookup (effect_ws a) a1 w _ Hs1) as [H|H];
      fold a2 in H.
    + eexists _, (close_socket s).
      split; [reflexivity|]. cbn. rewrite Hh2, Hlen, Ht.
      repeat split; try done.
      * apply close_socket_closing.
      * subst a1. cbn. by rewrite length_alter.
    + eexists _, (close_socket (close_socket s)).
      split; [reflexivity|]. cbn. rewrite Hh2, Hlen, Ht.
      repeat split; try done.
      * apply close_socket_closing.
      * subst a1. cbn. by rewrite length_alter.
Qed.

Lemma pause_closes_held_connection_witness :
  let a := default mount
             (run mount [SocketClosed 0; TimerFired 0; SocketClosed 1]%nat) in
  ∃ a' s',
    step a ToggleClicked = Some a' ∧
    isListening (hooks a') = false ∧
    isConnected (hooks a') = false ∧
    ws (hooks a') = None ∧
    sockets a' !! 2%nat = Some s' ∧
    (readyState s' = CLOSING ∨ readyState s' = CLOSED) ∧
    length (sockets a') = length (sockets a) ∧
    connectionAttempts (hooks a') = connectionAttempts (hooks a) ∧
    timers a' = timers a.
Proof.
  intros a.
  apply (pause_closes_held_connection a 2
           {| readyState := CONNECTING;
              handlers := {| cap_isListening := true;
                             cap_connectionAttempts := 1 |} |});
    vm_compute; reflexivity.
Defined.

(** C9, the claim as stated fails.  The first attempt failed, its retry
    fired and failed in turn, so the counter is 1, a reconnect is pending
    and the socket the effect opened is still connecting.  The pause closes
    that socket but leaves the counter at 1 and the timer pending; when the
    timer fires, the client being still paused, its callback opens a
    socket. *)
Lemma pause_counterexample :
  ∃ a a' a'',
    run mount [SocketClosed 0; TimerFired 0; SocketClosed 1]%nat = Some a ∧
    isListening (hooks a) = true ∧ ws (hooks a) = Some 2%nat ∧
    readyState <$> sockets a = [CLOSED; CLOSED; CONNECTING] ∧
    step a ToggleClicked = Some a' ∧
    isListening (hooks a') = false ∧
    readyState <$> sockets a' = [CLOSED; CLOSED; CLOSING] ∧
    connectionAttempts (hooks a') = 1 ∧
    connectionAttempts (hooks a') ≠ 0 ∧
    length (timers a') = 1%nat ∧
    step a' (TimerFired 0) = Some a'' ∧
    isListening (hooks a'') = false ∧
    readyState <$> sockets a'' = [CLOSED; CLOSED; CLOSING; CONNECTING].
Proof.
  do 3 eexists. split; [vm_compute; reflexivity|].
  do 3 (split; [vm_compute; reflexivity|]).
  split; [vm_compute; reflexivity|].
  do 3 (split; [vm_compute; reflexivity|]).
  split; [vm_compute; discriminate|].
  split; [vm_compute; reflexivity|].
  split; [vm_compute; reflexivity|].
  vm_compute. done.
Qed.

Lemma delete_last {A} (l : list A) (x : A) : delete (length l) (l ++ [x]) = l.
Proof. induction l as [|y l IH]; [done|]. simpl. by f_equal. Qed.

Lemma connectWebSocket_lookup (c : Closure) (a : App) (i : nat) (s : WebSocket) :
  sockets a !! i = Some s →
  sockets (exec (connectWebSocket c) a) !! i = Some s.
Proof.
  intros Hs. unfold connectWebSocket.
  destruct (cap_isListening c); cbn; [|done]. by apply lookup_app_l_Some.
Qed.

Lemma effect_body_lookup (h : Hooks) (a : App) (i : nat) (s : WebSocket) :
  sockets a !! i = Some s →
  sockets (exec (effect_body h) a) !! i = Some s.
Proof.
  intros Hs. unfold effect_body. destruct (isListening h); [|done].
  by apply connectWebSocket_lookup.
Qed.

(** A failed attempt is followed by another one with the same captured
    values.  In every state the component can reach, when a socket created by
    a listening render whose counter was below 5 closes, a reconnect is
    scheduled, and when it fires a socket with the same captured values is
    constructed, whatever the counter cell and [isListening] are by then. *)
Lemma stale_retry_perpetuates
    (evs : list Event) (a : App) (w : nat) (s : WebSocket) :
  run mount evs = Some a →
  fault (hooks a) = None →
  sockets a !! w = Some s →
  readyState s ≠ CLOSED →
  cap_isListening (handlers s) = true →
  cap_connectionAttempts (handlers s) < 5 →
  ∃ a1 a2 s',
    step a (SocketClosed w) = Some a1 ∧
    step a1 (TimerFired (length (timers a))) = Some a2 ∧
    connectionAttempts (hooks a2) = connectionAttempts (hooks a) + 1 ∧
    sockets a2 !! length (sockets a) = Some s' ∧
    handlers s' = handlers s.
Proof.
  intros Hrun Hf Hs Hr Hl Hn.
  pose proof (run_deps _ _ _ mount_deps Hrun Hf) as Hd.
  set (c := handlers s) in *.
  set (t := {| delay := reconnect_delay (cap_connectionAttempts c);
               callback := c |}).
  set (ss := alter (λ s, {| readyState := CLOSED; handlers := handlers s |})
               w (sockets a)).
  set (a1 := with_timers (timers a ++ [t])
               (with_hooks (with_isConnected false (hooks a))
                  (with_sockets ss a))).
  assert (step a (SocketClosed w) = Some a1) as H1.
  { unfold step. rewrite Hf. cbn [dispatch]. rewrite Hs.
    cbn [mbind option_bind]. destruct (readyState s) eqn:E; try done;
      cbn [mbind option_bind]; f_equal;
      (rewrite <- (commit_unchanged a1);
       [f_equal; unfold exec, js_bind, onclose, set_readyState, update,
          setIsConnected, on_hooks, setTimeout; cbn; fold c;
          apply Z.ltb_lt in Hn; by rewrite Hl, Hn
       |subst a1; cbn; rewrite Hd; by destruct (hooks a)]). }
  set (new := {| readyState := CONNECTING; handlers := c |}).
  set (h2 := with_ws (Some (length ss))
               (with_connectionAttempts (connectionAttempts (hooks a) + 1)
                  (with_isConnected false (hooks a)))).
  set (b := with_hooks h2
              (with_sockets (ss ++ [new])
                 (with_timers (timers a) a))).
  assert (length ss = length (sockets a)) as Hlen by apply length_alter.
  assert (fault h2 = None) as Hf2 by (subst h2; by destruct (hooks a)).
  assert (step a1 (TimerFired (length (timers a))) = Some (commit b)) as H2.
  { unfold step. change (fault (hooks a1)) with (fault (hooks a)).
    rewrite Hf. cbn [dispatch]. change (timers a1) with (timers a ++ [t]).
    rewrite lookup_app_r by lia. rewrite Nat.sub_diag.
    cbn [lookup list_lookup mbind option_bind]. do 2 f_equal.
    unfold exec, js_bind, reconnect, connectWebSocket, update,
      setConnectionAttempts_with, on_hooks. cbn. change (callback t) with c.
    rewrite Hl. cbn. subst b h2. unfold with_hooks, with_sockets, with_timers.
    cbn. f_equal. apply delete_last. }
  assert (rendered (hooks b) ≠ effect_deps b) as Hne.
  { change (effect_deps b) with (effect_deps a). rewrite Hd.
    subst b h2. unfold rendered. cbn. destruct (hooks a). cbn.
    intros [=]. lia. }
  rewrite commit_changed in H2 by done.
  change (hooks b) with h2 in H2. change (effect_ws b) with (effect_ws a) in H2.
  assert (sockets b !! length (sockets a) = Some new) as Hnew.
  { subst b. cbn. rewrite lookup_app_r by lia. by rewrite Hlen, Nat.sub_diag. }
  destruct (effect_hooks b) as [Hren _].
  change (hooks b) with h2 in Hren. change (effect_ws b) with (effect_ws a) in Hren.
  destruct (effect_cleanup_lookup (effect_ws a) b _ _ Hnew) as [H|H];
    apply (effect_body_lookup h2) in H.
  - eexists a1, _, new. split; [done|]. split; [exact H2|].
    split; [|split; [exact H|done]].
    cbn. apply (f_equal cap_connectionAttempts) in Hren. cbn in Hren.
    rewrite Hren. subst h2. by destruct (hooks a).
  - eexists a1, _, (close_socket new). split; [done|]. split; [exact H2|].
    split; [|split; [exact H|done]].
    cbn. apply (f_equal cap_connectionAttempts) in Hren. cbn in Hren.
    rewrite Hren. subst h2. by destruct (hooks a).
Qed.

End connection.
